(** * Transportation model of [app.py]

    A shallow embedding of [solve_transportation] (app.py, lines 5-52): the
    linear model it assembles through PuLP, the single call to the LP solver,
    what PuLP's [solve] does to the objective and the variables around that
    call, and the dictionary it returns.  Numbers are Python floats in the source;
    here they are exact rationals ([Q]), so every statement below is about
    the idealised arithmetic of the model, not about rounding. *)

From Stdlib Require Import QArith Ascii.
From stdpp Require Import gmap strings list fin_maps pretty.

(** * The program and what is asked of it *)

(** ** Python: exceptions, list indexing, loops *)

Inductive PyException : Type :=
| IndexError                 (* list index out of range *)
| KeyError                   (* dictionary key not present *)
| PulpError (msg : string).  (* raised by PuLP itself *)

Inductive Exc (A : Type) : Type :=
| Ok (a : A)
| Raise (e : PyException).
Arguments Ok {A} a.
Arguments Raise {A} e.

(** Sequencing: the first exception ends the computation. *)
Global Instance Exc_ret : MRet Exc := @Ok.
Global Instance Exc_bind : MBind Exc := λ A B k m,
  match m with
  | Ok a => k a
  | Raise e => Raise e
  end.

(** Position denoted by index [i] in a list of length [len]: non-negative
    indices count from the front, negative ones from the back. *)
Definition position (len : nat) (i : Z) : option nat :=
  let n := Z.of_nat len in
  let k := if (0 <=? i)%Z then i else (n + i)%Z in
  if ((0 <=? k)%Z && (k <? n)%Z)%bool then Some (Z.to_nat k) else None.

(** [l[i]], raising [IndexError] when [i] denotes no position of [l]. *)
Definition getitem {A} (l : list A) (i : Z) : Exc A :=
  match position (length l) i ≫= (l !!.) with
  | Some y => Ok y
  | None => Raise IndexError
  end.

(** [M[i][j]] *)
Definition getitem2 {A} (M : list (list A)) (i j : Z) : Exc A :=
  row ← getitem M i; getitem row j.

(** [range(n)] *)
Definition range (n : nat) : list nat := seq 0 n.

(** [for a in l: s = body(a, s)], stopping at the first exception. *)
Fixpoint for_each {A S} (l : list A) (body : A → S → Exc S) (s : S) : Exc S :=
  match l with
  | [] => Ok s
  | a :: l' => s' ← body a s; for_each l' body s'
  end.

(** The pairs visited by [for i in range(m) for j in range(n)]. *)
Definition routes (m n : nat) : list (nat * nat) :=
  i ← range m; (λ j, (i, j)) <$> range n.

(** Truth value of an optional list argument: [None] and [[]] are false. *)
Definition truthy {A} (o : option (list A)) : option (list A) :=
  match o with
  | Some (a :: l) => Some (a :: l)
  | _ => None
  end.

(** ** PuLP: variables, expressions, constraints, problems *)

Record LpVariable : Type := mkVar {
  name : string;
  lowBound : option Q;
  upBound : option Q }.

(** An affine expression without constant: its terms (variable, coefficient)
    in insertion order. *)
Definition LpAffineExpression : Type := list (LpVariable * Q).

Inductive LpConstraintSense : Type := LpConstraintLE | LpConstraintEQ | LpConstraintGE.

Record LpConstraint : Type := mkConstraint {
  lhs : LpAffineExpression;
  sense : LpConstraintSense;
  rhs : Q }.

Inductive LpSense : Type := LpMinimize | LpMaximize.

Record LpProblem : Type := mkProblem {
  prob_name : string;
  prob_sense : LpSense;
  objective : LpAffineExpression;
  constraints : gmap string LpConstraint }.

(** [LpProblem(name, sense)] *)
Definition LpProblem_new (nm : string) (s : LpSense) : LpProblem :=
  mkProblem nm s [] ∅.

(** [c * v] for a number [c] and a variable [v]: PuLP keeps no term when the
    factor equals zero. *)
Definition mul (c : Q) (v : LpVariable) : LpAffineExpression :=
  if Qeq_bool c 0 then [] else [(v, c)].

(** [LpAffineExpression(v)] for a variable [v]. *)
Definition of_var (v : LpVariable) : LpAffineExpression := [(v, 1%Q)].

(** [lpSum] of a sequence of expressions. *)
Definition lpSum (es : list LpAffineExpression) : LpAffineExpression := concat es.

(** PuLP rewrites the characters [-+[] ->/] of a name to [_]. *)
Definition sanitize_char (c : ascii) : ascii :=
  if bool_decide (c ∈ ["-"; "+"; "["; "]"; " "; ">"; "/"]%char) then "_"%char else c.

Fixpoint sanitize (s : string) : string :=
  match s with
  | EmptyString => EmptyString
  | String c s' => String (sanitize_char c) (sanitize s')
  end.

(** [prob += c, nm]: the constraint is stored under its sanitized name; a
    name already present raises [PulpError]. *)
Definition addConstraint (prob : LpProblem) (c : LpConstraint) (nm : string)
  : Exc LpProblem :=
  let nm := sanitize nm in
  match constraints prob !! nm with
  | Some _ => Raise (PulpError ("overlapping constraint names: " +:+ nm))
  | None =>
      Ok (mkProblem (prob_name prob) (prob_sense prob) (objective prob)
            (<[nm := c]> (constraints prob)))
  end.

(** [prob += e] for an expression [e]: it becomes the objective. *)
Definition setObjective (prob : LpProblem) (e : LpAffineExpression) : LpProblem :=
  mkProblem (prob_name prob) (prob_sense prob) e (constraints prob).

(** [LpStatus], the table of PuLP's [constants] module imported on line 2. *)
Definition LpStatus : gmap Z string :=
  {[ 0%Z := "Not Solved"; 1%Z := "Optimal"; (-1)%Z := "Infeasible";
     (-2)%Z := "Unbounded"; (-3)%Z := "Undefined" ]}.

(** What the solver run by [prob.solve()] reports: the problem's status code
    and, per variable name, a value ([None] when it reports none). *)
Record SolverOutcome : Type := mkOutcome {
  raw_status : Z;
  varValue : string → option Q }.

(** [LpProblem.solve] around the solver call.  [fixObjective] gives an
    objective without terms the variable [__dummy] for the call, and
    [restoreObjective] subtracts it afterwards, which leaves it in the
    objective with coefficient 0.  [assignVarsVals] stores the reported
    values in every variable but [__dummy], which so never has a value. *)
Definition dummyVar : LpVariable := mkVar "__dummy" (Some 0%Q) (Some 0%Q).

Definition restoreObjective (e : LpAffineExpression) : LpAffineExpression :=
  match e with
  | [] => [(dummyVar, 0%Q)]
  | _ => e
  end.

Definition assignVarsVals (values : string → option Q) (nm : string) : option Q :=
  if decide (nm = "__dummy") then None else values nm.

(** [e.value()]: [None] as soon as a variable of [e] has no value. *)
Fixpoint value_from (vals : string → option Q) (s : Q) (e : LpAffineExpression)
  : option Q :=
  match e with
  | [] => Some s
  | (v, c) :: e' =>
      match vals (name v) with
      | None => None
      | Some q => value_from vals (s + q * c)%Q e'
      end
  end.

Definition value (vals : string → option Q) (e : LpAffineExpression) : option Q :=
  value_from vals 0%Q e.

(** ** The function *)

(** The arguments of [solve_transportation].  Prohibited routes are pairs of
    integers: a tuple of another length, on which line 40 raises
    [ValueError], is outside this model. *)
Record Args : Type := mkArgs {
  costs : list (list Q);
  supply : list Q;
  demand : list Q;
  capacities : option (list (list Q));
  route_minimums : option (list (list Q));
  prohibited_routes : option (list (Z * Z)) }.

Record Solution : Type := mkSolution {
  status : string;
  total_cost : option Q;
  variables : gmap (nat * nat) (option Q) }.

(** Line 13: [LpVariable(f"x_{i}_{j}", lowBound=0)] and the matrix of these
    decision variables. *)
Definition x_var (i j : nat) : LpVariable :=
  mkVar ("x_" +:+ pretty i +:+ "_" +:+ pretty j) (Some 0%Q) None.

Definition make_x (num_origins num_destinations : nat) : list (list LpVariable) :=
  (λ i, x_var i <$> range num_destinations) <$> range num_origins.

Section Builder.
Variable a : Args.

Let num_origins := length (supply a).
Let num_destinations := length (demand a).
Let x := make_x num_origins num_destinations.

(** Line 16 *)
Definition add_objective (prob : LpProblem) : Exc LpProblem :=
  es ← mapM (λ '(i, j), c ← getitem2 (costs a) (Z.of_nat i) (Z.of_nat j);
                        v ← getitem2 x (Z.of_nat i) (Z.of_nat j);
                        Ok (mul c v))
            (routes num_origins num_destinations);
  Ok (setObjective prob (lpSum es)).

(** Lines 19-20 *)
Definition add_supply (prob : LpProblem) : Exc LpProblem :=
  for_each (range num_origins) (λ i prob,
    es ← mapM (λ j, v ← getitem2 x (Z.of_nat i) (Z.of_nat j); Ok (of_var v))
              (range num_destinations);
    s ← getitem (supply a) (Z.of_nat i);
    addConstraint prob (mkConstraint (lpSum es) LpConstraintLE s)
      ("Supply_" +:+ pretty i)) prob.

(** Lines 23-24 *)
Definition add_demand (prob : LpProblem) : Exc LpProblem :=
  for_each (range num_destinations) (λ j prob,
    es ← mapM (λ i, v ← getitem2 x (Z.of_nat i) (Z.of_nat j); Ok (of_var v))
              (range num_origins);
    d ← getitem (demand a) (Z.of_nat j);
    addConstraint prob (mkConstraint (lpSum es) LpConstraintGE d)
      ("Demand_" +:+ pretty j)) prob.

(** The loops of lines 28-30 and 34-36: one bound per route, read from the
    matrix [M]. *)
Definition add_route_bounds (M : list (list Q)) (sn : LpConstraintSense)
    (prefix : string) (prob : LpProblem) : Exc LpProblem :=
  for_each (range num_origins) (λ i prob,
    for_each (range num_destinations) (λ j prob,
      v ← getitem2 x (Z.of_nat i) (Z.of_nat j);
      q ← getitem2 M (Z.of_nat i) (Z.of_nat j);
      addConstraint prob (mkConstraint (of_var v) sn q)
        (prefix +:+ pretty i +:+ "_" +:+ pretty j)) prob) prob.

(** Lines 27-30 *)
Definition add_capacities (prob : LpProblem) : Exc LpProblem :=
  match truthy (capacities a) with
  | Some M => add_route_bounds M LpConstraintLE "Capacity_" prob
  | None => Ok prob
  end.

(** Lines 33-36 *)
Definition add_route_minimums (prob : LpProblem) : Exc LpProblem :=
  match truthy (route_minimums a) with
  | Some M => add_route_bounds M LpConstraintGE "RouteMin_" prob
  | None => Ok prob
  end.

(** Lines 39-41 *)
Definition add_prohibited (prob : LpProblem) : Exc LpProblem :=
  match truthy (prohibited_routes a) with
  | Some l =>
      for_each l (λ '(i, j) prob,
        v ← getitem2 x i j;
        addConstraint prob (mkConstraint (of_var v) LpConstraintEQ 0%Q)
          ("Prohibited_" +:+ pretty i +:+ "_" +:+ pretty j)) prob
  | None => Ok prob
  end.

(** Lines 6-41: everything before [prob.solve()]. *)
Definition build_model : Exc LpProblem :=
  prob ← add_objective (LpProblem_new "Transportation_Problem" LpMinimize);
  prob ← add_supply prob;
  prob ← add_demand prob;
  prob ← add_capacities prob;
  prob ← add_route_minimums prob;
  add_prohibited prob.

(** Line 50: the dictionary comprehension, one insertion per route. *)
Definition read_variables (vals : string → option Q)
  : Exc (gmap (nat * nat) (option Q)) :=
  for_each (routes num_origins num_destinations) (λ '(i, j) d,
    v ← getitem2 x (Z.of_nat i) (Z.of_nat j);
    Ok (<[(i, j) := vals (name v)]> d)) ∅.
End Builder.

(** A run of the function: the problems [solve] was called on, in order, and
    either the returned dictionary or the exception raised. *)
Record Run : Type := mkRun {
  solver_calls : list LpProblem;
  outcome : Exc Solution }.

Section Solve.
(** The external LP solver behind [prob.solve()], as a function from the
    problem [solve] is called on to what it reports.  A solver that fails by
    raising is not modelled. *)
Variable solver : LpProblem → SolverOutcome.

(** Lines 47-51, on the problem as [prob.solve()] of line 44 leaves it: the
    variables hold the values assigned from the solver's report [o], and the
    objective is the restored one. *)
Definition make_solution (a : Args) (prob : LpProblem) (o : SolverOutcome)
  : Exc Solution :=
  let vals := assignVarsVals (varValue o) in
  st ← match LpStatus !! raw_status o with
       | Some s => Ok s
       | None => Raise KeyError
       end;
  vars ← read_variables a vals;
  Ok (mkSolution st (value vals (restoreObjective (objective prob))) vars).

(** Lines 5-52 *)
Definition solve_transportation (a : Args) : Run :=
  match build_model a with
  | Raise e => mkRun [] (Raise e)
  | Ok prob => mkRun [prob] (make_solution a prob (solver prob))
  end.
End Solve.

(** ** Meaning of a model

    A reading [vals] gives each variable name its value, if it has one.  A
    constraint is valid under [vals] when its left-hand side has a value that
    compares with the right-hand side as the sense says; a reading is feasible
    for a problem when all constraints are valid and every variable of the
    problem has a value within its bounds. *)

Definition compare (sn : LpConstraintSense) (l r : Q) : Prop :=
  match sn with
  | LpConstraintLE => (l <= r)%Q
  | LpConstraintEQ => (l == r)%Q
  | LpConstraintGE => (r <= l)%Q
  end.

Definition valid (vals : string → option Q) (c : LpConstraint) : Prop :=
  match value vals (lhs c) with
  | Some q => compare (sense c) q (rhs c)
  | None => False
  end.

Definition in_bounds (vals : string → option Q) (v : LpVariable) : Prop :=
  match vals (name v) with
  | Some q =>
      from_option (λ l, (l <= q)%Q) True (lowBound v) ∧
      from_option (λ u, (q <= u)%Q) True (upBound v)
  | None => False
  end.

(** [prob.variables()]: the variables of the objective and of the constraints. *)
Definition lp_variables (prob : LpProblem) : list LpVariable :=
  (fst <$> objective prob) ++
  (map_to_list (constraints prob) ≫= λ '(_, c), fst <$> lhs c).

Definition feasible (vals : string → option Q) (prob : LpProblem) : Prop :=
  map_Forall (λ _ c, valid vals c) (constraints prob) ∧
  Forall (in_bounds vals) (lp_variables prob).

(** The same checks as boolean functions. *)
Definition compareb (sn : LpConstraintSense) (l r : Q) : bool :=
  match sn with
  | LpConstraintLE => Qle_bool l r
  | LpConstraintEQ => Qeq_bool l r
  | LpConstraintGE => Qle_bool r l
  end.

Definition validb (vals : string → option Q) (c : LpConstraint) : bool :=
  match value vals (lhs c) with
  | Some q => compareb (sense c) q (rhs c)
  | None => false
  end.

Definition in_boundsb (vals : string → option Q) (v : LpVariable) : bool :=
  match vals (name v) with
  | Some q =>
      from_option (λ l, Qle_bool l q) true (lowBound v) &&
      from_option (λ u, Qle_bool q u) true (upBound v)
  | None => false
  end.

Definition feasibleb (vals : string → option Q) (prob : LpProblem) : bool :=
  forallb (λ nc, validb vals nc.2) (map_to_list (constraints prob)) &&
  forallb (in_boundsb vals) (lp_variables prob).

(** Sums of rationals, and the quantities the specification talks about. *)
Definition Qsum (l : list Q) : Q := foldr Qplus 0%Q l.

(** The quantity shipped on route (i, j) under a reading; 0 when unset. *)
Definition shipment (vals : string → option Q) (i j : nat) : Q :=
  default 0%Q (vals (name (x_var i j))).

Definition outflow (vals : string → option Q) (n i : nat) : Q :=
  Qsum ((λ j, shipment vals i j) <$> range n).

Definition inflow (vals : string → option Q) (m j : nat) : Q :=
  Qsum ((λ i, shipment vals i j) <$> range m).

(** The value of an expression when unset variables count as 0. *)
Definition eval (vals : string → option Q) (e : LpAffineExpression) : Q :=
  Qsum ((λ vc, default 0%Q (vals (name vc.1)) * vc.2)%Q <$> e).

(** [p'] has the sense and the objective of [p] and at least its constraints. *)
Definition extends (p p' : LpProblem) : Prop :=
  prob_sense p = prob_sense p' ∧ objective p = objective p' ∧
  constraints p ⊆ constraints p'.

(** ** Names and rows of the model *)

(** [f"Supply_{i}"] and [f"Demand_{j}"] *)
Definition supply_name (i : nat) : string := "Supply_" +:+ pretty i.
Definition demand_name (j : nat) : string := "Demand_" +:+ pretty j.

(** [f"Capacity_{i}_{j}"] and [f"RouteMin_{i}_{j}"], by prefix. *)
Definition route_name (prefix : string) (ij : nat * nat) : string :=
  prefix +:+ pretty ij.1 +:+ "_" +:+ pretty ij.2.

(** The key under which the constraint of a prohibited route is stored. *)
Definition prohibited_name (ij : Z * Z) : string :=
  sanitize ("Prohibited_" +:+ pretty ij.1 +:+ "_" +:+ pretty ij.2).

(** Left-hand sides of the supply and demand rows. *)
Definition supply_lhs (n i : nat) : LpAffineExpression :=
  lpSum ((λ j, of_var (x_var i j)) <$> range n).

Definition demand_lhs (m j : nat) : LpAffineExpression :=
  lpSum ((λ i, of_var (x_var i j)) <$> range m).

(** Strings of decimal digits, and the first character of a name. *)
Definition is_digit (c : ascii) : bool :=
  bool_decide (c ∈ ["0"; "1"; "2"; "3"; "4"; "5"; "6"; "7"; "8"; "9"]%char).

Fixpoint all_digits (s : string) : bool :=
  match s with
  | EmptyString => true
  | String c s' => is_digit c && all_digits s'
  end.

Definition head (nm : string) : option ascii :=
  match nm with
  | String c _ => Some c
  | EmptyString => None
  end.

(** Every stored name starts with one of the characters [cs]. *)
Definition keys_start (cs : list ascii) (p : LpProblem) : Prop :=
  ∀ nm, is_Some (constraints p !! nm) → ∃ c, head nm = Some c ∧ c ∈ cs.

(** ** Statements about a model and about a result

    The properties the claims ask for, as predicates on the arguments, the
    built model and the returned result. *)

(** Origin [i] has the row [Supply_i]: the sum of its variables, at most
    [supply[i]]. *)
Definition supply_is_upper_bound (a : Args) (prob : LpProblem) : Prop :=
  ∀ i s, supply a !! i = Some s →
    ∃ c, constraints prob !! supply_name i = Some c ∧
      lhs c = supply_lhs (length (demand a)) i ∧
      sense c = LpConstraintLE ∧ rhs c = s ∧
      ∀ vals, valid vals c ↔
        (∀ j, j < length (demand a) → is_Some (vals (name (x_var i j)))) ∧
        (outflow vals (length (demand a)) i <= s)%Q.

(** Destination [j] has the row [Demand_j]: the sum of its variables, at
    least [demand[j]]. *)
Definition demand_is_lower_bound (a : Args) (prob : LpProblem) : Prop :=
  ∀ j d, demand a !! j = Some d →
    ∃ c, constraints prob !! demand_name j = Some c ∧
      lhs c = demand_lhs (length (supply a)) j ∧
      sense c = LpConstraintGE ∧ rhs c = d ∧
      ∀ vals, valid vals c ↔
        (∀ i, i < length (supply a) → is_Some (vals (name (x_var i j)))) ∧
        (d <= inflow vals (length (supply a)) j)%Q.

(** The prohibited route [ij] denotes the variable x[r][c]; its row says
    x[r][c] = 0, and a returned Optimal result whose values satisfy the model
    reports 0 for it. *)
Definition prohibited_route_spec (solver : LpProblem → SolverOutcome)
    (a : Args) (prob : LpProblem) (ij : Z * Z) : Prop :=
  ∃ r c,
    position (length (supply a)) ij.1 = Some r ∧
    position (length (demand a)) ij.2 = Some c ∧
    constraints prob !! prohibited_name ij
    = Some (mkConstraint (of_var (x_var r c)) LpConstraintEQ 0%Q) ∧
    (∀ vals, valid vals (mkConstraint (of_var (x_var r c)) LpConstraintEQ 0%Q) ↔
       ∃ v, vals (name (x_var r c)) = Some v ∧ (0 <= v)%Q ∧ (v <= 0)%Q) ∧
    (∀ sol, outcome (solve_transportation solver a) = Ok sol →
       status sol = "Optimal" →
       feasible (varValue (solver prob)) prob →
       ∃ v, variables sol !! (r, c) = Some (Some v) ∧ (v == 0)%Q).

(** Every route has its capacity row; a capacity of 0 leaves 0 as the only
    feasible value. *)
Definition capacity_on_every_route (a : Args) (prob : LpProblem) : Prop :=
  ∀ M i j, capacities a = Some M → M ≠ [] →
    i < length (supply a) → j < length (demand a) →
    ∃ q, M !! i ≫= (.!! j) = Some q ∧
      constraints prob !! route_name "Capacity_" (i, j)
      = Some (mkConstraint (of_var (x_var i j)) LpConstraintLE q) ∧
      (∀ vals, valid vals (mkConstraint (of_var (x_var i j)) LpConstraintLE q) ↔
         ∃ v, vals (name (x_var i j)) = Some v ∧ (v <= q)%Q) ∧
      ((q == 0)%Q → ∀ vals, feasible vals prob →
         ∃ v, vals (name (x_var i j)) = Some v ∧ (v == 0)%Q).

(** Every route has its minimum row. *)
Definition minimum_on_every_route (a : Args) (prob : LpProblem) : Prop :=
  ∀ M i j, route_minimums a = Some M → M ≠ [] →
    i < length (supply a) → j < length (demand a) →
    ∃ q, M !! i ≫= (.!! j) = Some q ∧
      constraints prob !! route_name "RouteMin_" (i, j)
      = Some (mkConstraint (of_var (x_var i j)) LpConstraintGE q) ∧
      (∀ vals, valid vals (mkConstraint (of_var (x_var i j)) LpConstraintGE q) ↔
         ∃ v, vals (name (x_var i j)) = Some v ∧ (q <= v)%Q).

(** [costs[i][j]], 0 outside the matrix. *)
Definition cost_at (a : Args) (i j : nat) : Q :=
  default 0%Q (costs a !! i ≫= (.!! j)).

(** The quantity a result reports for route (i, j), 0 when null or absent. *)
Definition reported (sol : Solution) (i j : nat) : Q :=
  default 0%Q (mjoin (variables sol !! (i, j))).

(** Σ cost[i][j]·x[i][j] over all routes, computed from the returned matrix. *)
Definition shipping_cost (a : Args) (sol : Solution) : Q :=
  Qsum ((λ ij, cost_at a ij.1 ij.2 * reported sol ij.1 ij.2)%Q
          <$> routes (length (supply a)) (length (demand a))).


(** [M] has an entry for each of the m×n routes. *)
Definition covers (m n : nat) (M : list (list Q)) : Prop :=
  ∀ i j, i < m → j < n → is_Some (M !! i ≫= (.!! j)).

(** Arguments of the shapes the function expects: the matrices cover every
    route, and the prohibited routes are in range and listed once. *)
Definition well_shaped (a : Args) : Prop :=
  let m := length (supply a) in
  let n := length (demand a) in
  covers m n (costs a) ∧
  (∀ M, truthy (capacities a) = Some M → covers m n M) ∧
  (∀ M, truthy (route_minimums a) = Some M → covers m n M) ∧
  (∀ l, truthy (prohibited_routes a) = Some l →
     NoDup l ∧
     ∀ ij, ij ∈ l → is_Some (position m ij.1) ∧ is_Some (position n ij.2)).

(** The run ended with an exception before any solver call. *)
Definition rejects_before_solving (solver : LpProblem → SolverOutcome)
    (a : Args) : Prop :=
  ∃ e, solve_transportation solver a = mkRun [] (Raise e).

(** Every supply, demand, capacity and minimum entry is the right-hand side
    of its row, as passed. *)
Definition entries_unchanged (a : Args) (prob : LpProblem) : Prop :=
  (∀ i s, supply a !! i = Some s →
     ∃ c, constraints prob !! supply_name i = Some c ∧ rhs c = s) ∧
  (∀ j d, demand a !! j = Some d →
     ∃ c, constraints prob !! demand_name j = Some c ∧ rhs c = d) ∧
  (∀ M i j, capacities a = Some M → M ≠ [] →
     i < length (supply a) → j < length (demand a) →
     ∃ q c, M !! i ≫= (.!! j) = Some q ∧
            constraints prob !! route_name "Capacity_" (i, j) = Some c ∧ rhs c = q) ∧
  (∀ M i j, route_minimums a = Some M → M ≠ [] →
     i < length (supply a) → j < length (demand a) →
     ∃ q c, M !! i ≫= (.!! j) = Some q ∧
            constraints prob !! route_name "RouteMin_" (i, j) = Some c ∧ rhs c = q).

(** Some supply, demand, capacity or minimum entry is negative. *)
Definition has_negative_entry (a : Args) : Prop :=
  (∃ i s, supply a !! i = Some s ∧ (s < 0)%Q) ∨
  (∃ j d, demand a !! j = Some d ∧ (d < 0)%Q) ∨
  (∃ M i j q, capacities a = Some M ∧ M !! i ≫= (.!! j) = Some q ∧ (q < 0)%Q) ∨
  (∃ M i j q, route_minimums a = Some M ∧ M !! i ≫= (.!! j) = Some q ∧ (q < 0)%Q).

(** ** Worked examples *)

(** Two origins and two destinations, with capacities, minimums and two
    prohibited routes, the second written with a negative index. *)
Definition example_args : Args :=
  mkArgs [[4; 6]; [8; 5]]%Q [20; 30]%Q [10; 15]%Q
    (Some [[10; 0]; [5; 15]]%Q) (Some [[0; 0]; [0; 5]]%Q)
    (Some [(0, 1); (-1, 0)]%Z).

Definition example_model : LpProblem :=
  Eval vm_compute in
    match build_model example_args with
    | Ok prob => prob
    | Raise _ => LpProblem_new "" LpMinimize
    end.

(** A solver that reports [Optimal] with 10 units on route (0,0), 15 on route
    (1,1) and nothing elsewhere. *)
Definition example_solver (prob : LpProblem) : SolverOutcome :=
  mkOutcome 1 (λ nm, if decide (nm = "x_0_0") then Some 10%Q
                     else if decide (nm = "x_1_1") then Some 15%Q
                     else Some 0%Q).

Definition example_solution : Solution :=
  Eval vm_compute in
    match outcome (solve_transportation example_solver example_args) with
    | Ok sol => sol
    | Raise _ => mkSolution "" None ∅
    end.

(** The scenario of the specification: supply [5], demand [10], one route. *)
Definition single_route_args : Args :=
  mkArgs [[3]]%Q [5]%Q [10]%Q None None None.

Definition single_route_model : LpProblem :=
  Eval vm_compute in
    match build_model single_route_args with
    | Ok prob => prob
    | Raise _ => LpProblem_new "" LpMinimize
    end.

(** A solver that reports [Infeasible] and assigns no value. *)
Definition infeasible_solver (prob : LpProblem) : SolverOutcome :=
  mkOutcome (-1) (λ _, None).

(** One route with capacity 2 and minimum 5. *)
Definition conflict_args : Args :=
  mkArgs [[1]]%Q [10]%Q [0]%Q (Some [[2]]%Q) (Some [[5]]%Q) None.

(** One route out of an origin with supply -1. *)
Definition negative_args : Args :=
  mkArgs [[1]]%Q [-1]%Q [0]%Q None None None.

(** A solver that reports [Infeasible] and leaves 7 in every variable. *)
Definition stale_solver (prob : LpProblem) : SolverOutcome :=
  mkOutcome (-1) (λ _, Some 7%Q).

(** A solver that stops without an answer: status code 0. *)
Definition unsolved_solver (prob : LpProblem) : SolverOutcome :=
  mkOutcome 0 (λ _, None).

(** One route that costs nothing, supply 5, demand 3. *)
Definition zero_cost_args : Args :=
  mkArgs [[0]]%Q [5]%Q [3]%Q None None None.

(** A solver that reports [Optimal] with 3 in every variable. *)
Definition zero_cost_solver (prob : LpProblem) : SolverOutcome :=
  mkOutcome 1 (λ _, Some 3%Q).

(** One route, supply 1, nothing demanded. *)
Definition noise_args : Args :=
  mkArgs [[1]]%Q [1]%Q [0]%Q None None None.

(** A solver that reports [Optimal] with -1e-8 in every variable. *)
Definition noise_solver (prob : LpProblem) : SolverOutcome :=
  mkOutcome 1 (λ _, Some (-1 # 100000000)%Q).

(** ** Further statements about the function

    Shapes of the arguments, by the kind of exception that a wrong one leads
    to. *)

(** Every index the builder uses denotes an entry: the matrices cover every
    route and the prohibited routes are within the matrix of variables. *)
Definition indices_in_range (a : Args) : Prop :=
  let m := length (supply a) in
  let n := length (demand a) in
  covers m n (costs a) ∧
  (∀ M, truthy (capacities a) = Some M → covers m n M) ∧
  (∀ M, truthy (route_minimums a) = Some M → covers m n M) ∧
  (∀ l, truthy (prohibited_routes a) = Some l →
     ∀ ij, ij ∈ l → is_Some (position m ij.1) ∧ is_Some (position n ij.2)).

(** Some prohibited route is listed more than once. *)
Definition repeats_prohibited (a : Args) : Prop :=
  ∃ l, truthy (prohibited_routes a) = Some l ∧ ¬ NoDup l.

(** Arguments that do not reach the solver: no cost matrix at all, a
    prohibited route listed twice, a prohibited route outside the matrix. *)
Definition no_costs_args : Args :=
  mkArgs [] [1]%Q [1]%Q None None None.

Definition repeated_route_args : Args :=
  mkArgs [[1]]%Q [1]%Q [1]%Q None None (Some [(0, 0); (0, 0)]%Z).

Definition far_route_args : Args :=
  mkArgs [[1]]%Q [1]%Q [1]%Q None None (Some [(-2, 0)]%Z).

(** The rows the function writes, by name and content: one per origin, one
    per destination, one per route for each matrix of bounds passed, one per
    prohibited route. *)
Definition listed_row (a : Args) (nm : string) (c : LpConstraint) : Prop :=
  let m := length (supply a) in
  let n := length (demand a) in
  (∃ i s, supply a !! i = Some s ∧ nm = supply_name i ∧
          c = mkConstraint (supply_lhs n i) LpConstraintLE s) ∨
  (∃ j d, demand a !! j = Some d ∧ nm = demand_name j ∧
          c = mkConstraint (demand_lhs m j) LpConstraintGE d) ∨
  (∃ M i j q, truthy (capacities a) = Some M ∧ i < m ∧ j < n ∧
              M !! i ≫= (.!! j) = Some q ∧ nm = route_name "Capacity_" (i, j) ∧
              c = mkConstraint (of_var (x_var i j)) LpConstraintLE q) ∨
  (∃ M i j q, truthy (route_minimums a) = Some M ∧ i < m ∧ j < n ∧
              M !! i ≫= (.!! j) = Some q ∧ nm = route_name "RouteMin_" (i, j) ∧
              c = mkConstraint (of_var (x_var i j)) LpConstraintGE q) ∨
  (∃ l ij r k, truthy (prohibited_routes a) = Some l ∧ ij ∈ l ∧
               position m ij.1 = Some r ∧ position n ij.2 = Some k ∧
               nm = prohibited_name ij ∧
               c = mkConstraint (of_var (x_var r k)) LpConstraintEQ 0%Q).

(** What a reading has to satisfy, in terms of the arguments alone: a
    non-negative quantity on every route, outflow within supply, inflow
    covering demand, and the capacity, minimum and prohibition of each route
    where they were passed. *)
Definition admissible (a : Args) (vals : string → option Q) : Prop :=
  let m := length (supply a) in
  let n := length (demand a) in
  (∀ i j, i < m → j < n → ∃ q, vals (name (x_var i j)) = Some q ∧ (0 <= q)%Q) ∧
  (∀ i s, supply a !! i = Some s → (outflow vals n i <= s)%Q) ∧
  (∀ j d, demand a !! j = Some d → (d <= inflow vals m j)%Q) ∧
  (∀ M i j q, truthy (capacities a) = Some M → i < m → j < n →
     M !! i ≫= (.!! j) = Some q → (shipment vals i j <= q)%Q) ∧
  (∀ M i j q, truthy (route_minimums a) = Some M → i < m → j < n →
     M !! i ≫= (.!! j) = Some q → (q <= shipment vals i j)%Q) ∧
  (∀ l ij r k, truthy (prohibited_routes a) = Some l → ij ∈ l →
     position m ij.1 = Some r → position n ij.2 = Some k →
     (shipment vals r k == 0)%Q).

(** The same problem without capacities, minimums and prohibited routes. *)
Definition plain (a : Args) : Args :=
  mkArgs (costs a) (supply a) (demand a) None None None.

(** A reading given route by route: the variable of route (i, j), for i < m
    and j < n, reads [f i j]; no other name has a value. *)
Definition reading_of (f : nat → nat → Q) (m n : nat) (nm : string) : option Q :=
  (λ kij, f kij.2.1 kij.2.2)
    <$> list_find (λ ij, name (x_var ij.1 ij.2) = nm) (routes m n).

(** The plan that ships supply[i]·demand[j] / total supply on route (i, j),
    and nothing when there is no supply at all. *)
Definition proportional (a : Args) (i j : nat) : Q :=
  if Qeq_bool (Qsum (supply a)) 0 then 0%Q
  else (default 0 (supply a !! i) * default 0 (demand a !! j)
        / Qsum (supply a))%Q.

(** The 2×2 scenario without further constraints. *)
Definition balanced_args : Args :=
  mkArgs [[4; 6]; [8; 5]]%Q [20; 30]%Q [10; 15]%Q None None None.

(** The only route into a destination that demands 10 is prohibited. *)
Definition blocked_args : Args :=
  mkArgs [[1]]%Q [10]%Q [10]%Q None None (Some [(0, 0)]%Z).

(** Two origins may send 5 each to a destination that demands 15. *)
Definition tight_capacity_args : Args :=
  mkArgs [[1]; [1]]%Q [10; 10]%Q [15]%Q (Some [[5]; [5]]%Q) None None.

(** An origin with supply 10 must send at least 6 on each of two routes. *)
Definition heavy_minimum_args : Args :=
  mkArgs [[1; 1]]%Q [10]%Q [0; 0]%Q None (Some [[6; 6]]%Q) None.

(** ** The page around the function (lines 54-127)

    Python's [sep.join(l)] and [s.split(sep)] for a separator of one
    character, the text a field of the form shows before it is edited, and
    what the page does with the result: the table of rows and the CSV text.
    The conversions between text and floats ([float], and [str] inside the
    f-string) are parameters. *)

(** [sep.join(l)] *)
Fixpoint str_join (sep : string) (l : list string) : string :=
  match l with
  | [] => ""
  | [w] => w
  | w :: ws => w +:+ sep +:+ str_join sep ws
  end.

(** [s.split(sep)] for a one-character [sep]: the empty text gives one empty
    field. *)
Fixpoint str_split (sep : ascii) (s : string) : list string :=
  match s with
  | EmptyString => [""]
  | String c s' =>
      if decide (c = sep) then "" :: str_split sep s'
      else match str_split sep s' with
           | w :: ws => String c w :: ws
           | [] => [String c ""]
           end
  end.

(** Whether the character occurs in the text. *)
Fixpoint has_char (c : ascii) (s : string) : bool :=
  match s with
  | EmptyString => false
  | String c' s' => bool_decide (c' = c) || has_char c s'
  end.

(** The line feed, [","] and ["\n"] as separators. *)
Definition line_feed : ascii := ascii_of_nat 10.
Definition comma : ascii := ","%char.

(** Lines 66, 71, 76, 91, 98: [",".join(["0"] * k)], the text of an untouched
    field for [k] numbers. *)
Definition default_text (k : nat) : string := str_join "," (replicate k "0").

(** A row of the table of line 119. *)
Record Row : Type := mkRow {
  Origen : nat;
  Destino : nat;
  Unidades : option Q }.

(** Lines 119-122: one row per pair of the form's counts, read from the
    result's dictionary; a pair that is not a key raises [KeyError]. *)
Definition table_rows (num_origins num_destinations : nat) (solution : Solution)
  : Exc (list Row) :=
  mapM (λ '(i, j),
          match variables solution !! (i, j) with
          | Some u => Ok (mkRow (i + 1) (j + 1) u)
          | None => Raise KeyError
          end)
       (routes num_origins num_destinations).

Section Page.
(** [float(x)] on a field, [None] for [ValueError]; [str] of a float. *)
Variable float : string → option Q.
Variable str_float : Q → string.

(** Lines 67, 72, 77, 92, 99: [[float(x) for x in row.split(",")]] *)
Definition parse_row (row : string) : option (list Q) :=
  mapM float (str_split comma row).

(** [f"{u}"] for the units of a row: a float or [None]. *)
Definition str_units (u : option Q) : string :=
  match u with
  | Some q => str_float q
  | None => "None"
  end.

(** [f"{v['Origen']},{v['Destino']},{v['Unidades']}"] *)
Definition csv_line (v : Row) : string :=
  pretty (Origen v) +:+ "," +:+ pretty (Destino v) +:+ "," +:+ str_units (Unidades v).

(** Line 126 *)
Definition csv_text (rows : list Row) : string :=
  ("Origen,Destino,Unidades" +:+ String line_feed "")
    +:+ str_join (String line_feed "") (csv_line <$> rows).
End Page.

(** What the form passes when it counts two origins and one destination and
    the supply field holds one number only. *)
Definition short_supply_args : Args :=
  mkArgs [[1]; [1]]%Q [1]%Q [1]%Q None None None.

(** Lines 113-122: the button's handler up to the table. *)
Definition page_table (solver : LpProblem → SolverOutcome)
    (num_origins num_destinations : nat) (a : Args) : Exc (list Row) :=
  solution ← outcome (solve_transportation solver a);
  table_rows num_origins num_destinations solution.

(** The text of the units of a row holds neither separator of the file. *)
Definition plain_units (str_float : Q → string) (v : Row) : bool :=
  negb (has_char comma (str_units str_float (Unidades v))) &&
  negb (has_char line_feed (str_units str_float (Unidades v))).

(** [str] of a float that holds a whole number below 10^16: [5.0]. *)
Definition whole_text (q : Q) : string :=
  pretty (Qnum q `div` Z.pos (Qden q))%Z +:+ ".0".

(** [float] on the one text an untouched field holds. *)
Definition float_of_zero (x : string) : option Q :=
  if decide (x = "0") then Some 0%Q else None.

(** Rows of a table: 5 units on the first route, no value on the second. *)
Definition example_rows : list Row :=
  [mkRow 1 1 (Some 5%Q); mkRow 1 2 None].

(** * Properties *)

(** ** Python helpers *)

Lemma getitem_nat {A} (l : list A) (i : nat) :
  getitem l (Z.of_nat i) = from_option Ok (Raise IndexError) (l !! i).
Proof.
  unfold getitem, position. cbv zeta.
  assert ((0 <=? Z.of_nat i)%Z = true) as -> by (apply Z.leb_le; lia).
  assert ((0 <=? Z.of_nat i)%Z = true) as -> by (apply Z.leb_le; lia).
  rewrite Nat2Z.id.
  destruct (l !! i) as [y|] eqn:E; simpl.
  - pose proof (lookup_lt_Some _ _ _ E).
    destruct (Z.ltb_spec (Z.of_nat i) (Z.of_nat (length l))); [|lia].
    simpl. by rewrite E.
  - destruct (_ <? _)%Z; simpl; [|done]. by rewrite E.
Qed.

Lemma position_lt (len : nat) (i : Z) (k : nat) : position len i = Some k → k < len.
Proof.
  unfold position. cbv zeta. case_match eqn:E; [|done].
  apply andb_true_iff in E as [?%Z.leb_le ?%Z.ltb_lt]. intros [= <-]. lia.
Qed.

Lemma getitem_Ok {A} (l : list A) (i : Z) (y : A) :
  getitem l i = Ok y ↔ ∃ k, position (length l) i = Some k ∧ l !! k = Some y.
Proof.
  unfold getitem. destruct (position (length l) i) as [k|]; simpl.
  - destruct (l !! k) eqn:E; split.
    + intros [= ->]. eauto.
    + by intros (? & [= <-] & [= ->]%(eq_trans (eq_sym E))).
    + done.
    + intros (? & [= <-] & ?). congruence.
  - split; [done|]. by intros (? & [=] & ?).
Qed.

Lemma bind_Ok {A B} (m : Exc A) (k : A → Exc B) (b : B) :
  m ≫= k = Ok b ↔ ∃ y, m = Ok y ∧ k y = Ok b.
Proof.
  destruct m as [y|e]; simpl; split.
  - eauto.
  - by intros (? & [= <-] & ?).
  - done.
  - by intros (? & [=] & ?).
Qed.

Lemma mapM_Ok {A B} (f : A → Exc B) (g : A → B) (l : list A) :
  (∀ y, y ∈ l → f y = Ok (g y)) → mapM f l = Ok (g <$> l).
Proof.
  induction l as [|y l IH]; intros Hf; [done|]. simpl.
  rewrite (Hf y) by left. simpl.
  rewrite IH; [done|]. intros ??. apply Hf. by right.
Qed.

Lemma for_each_ext {A S} (f g : A → S → Exc S) (l : list A) (s : S) :
  (∀ y s, y ∈ l → f y s = g y s) → for_each l f s = for_each l g s.
Proof.
  revert s. induction l as [|y l IH]; intros s Hfg; [done|]. simpl.
  rewrite Hfg by left. destruct (g y s); simpl; [|done].
  apply IH. intros ???. apply Hfg. by right.
Qed.

Lemma for_each_app {A S} (f : A → S → Exc S) (l1 l2 : list A) (s : S) :
  for_each (l1 ++ l2) f s = for_each l1 f s ≫= for_each l2 f.
Proof.
  revert s. induction l1 as [|y l1 IH]; intros s; [done|]. simpl.
  destruct (f y s); simpl; [apply IH|done].
Qed.

Section for_each_order.
Context {A S : Type} (R : relation S) `{!PreOrder R}.
Context (body : A → S → Exc S).
Hypothesis body_mono : ∀ y s s', body y s = Ok s' → R s s'.

Lemma for_each_mono (l : list A) (s s' : S) :
  for_each l body s = Ok s' → R s s'.
Proof.
  revert s. induction l as [|y l IH]; intros s; simpl.
  - by intros [= ->].
  - intros (s1 & H1 & H2)%bind_Ok. etrans; eauto.
Qed.

(** Every element of the list had its turn, between the start and the end. *)
Lemma for_each_elem (l : list A) (s s' : S) (y : A) :
  for_each l body s = Ok s' → y ∈ l →
  ∃ s1 s2, R s s1 ∧ body y s1 = Ok s2 ∧ R s2 s'.
Proof.
  revert s. induction l as [|z l IH]; intros s; simpl.
  - intros _ []%elem_of_nil.
  - intros (s1 & H1 & H2)%bind_Ok [->|Hy]%elem_of_cons.
    + exists s, s1. split_and!; [done..|]. by eapply for_each_mono.
    + destruct (IH _ H2 Hy) as (t1 & t2 & ? & ? & ?).
      exists t1, t2. split_and!; [|done..]. etrans; eauto.
Qed.
End for_each_order.

Lemma elem_of_range (n i : nat) : i ∈ range n ↔ i < n.
Proof. unfold range. rewrite elem_of_seq. lia. Qed.

Lemma elem_of_routes (m n i j : nat) : (i, j) ∈ routes m n ↔ i < m ∧ j < n.
Proof.
  unfold routes. rewrite list_elem_of_bind. split.
  - intros (i' & (j' & [= -> ->] & ?%elem_of_range)%list_elem_of_fmap
               & ?%elem_of_range). done.
  - intros [??]. exists i. rewrite list_elem_of_fmap, elem_of_range.
    split; [|done]. exists j. by rewrite elem_of_range.
Qed.

Lemma getitem2_x (m n i j : nat) :
  i < m → j < n →
  getitem2 (make_x m n) (Z.of_nat i) (Z.of_nat j) = Ok (x_var i j).
Proof.
  intros Hi Hj. unfold getitem2, make_x, range.
  rewrite getitem_nat, list_lookup_fmap, lookup_seq_lt by done. simpl.
  by rewrite getitem_nat, list_lookup_fmap, lookup_seq_lt.
Qed.

(** ** Constraint names

    The names the function builds are made of a fixed prefix and decimal
    numerals; PuLP's rewriting leaves them unchanged unless an index is
    negative, and different indices give different names. *)

Lemma is_digit_pretty_N_char (k : N) : is_digit (pretty_N_char k) = true.
Proof. unfold pretty_N_char. by repeat case_match. Qed.

Lemma all_digits_pretty_N_go (k : N) (s : string) :
  all_digits s = true → all_digits (pretty_N_go k s) = true.
Proof.
  revert s. induction (N.lt_wf_0 k) as [k _ IH]; intros s Hs.
  assert (k = 0 ∨ 0 < k)%N as [->|?] by lia; [by rewrite pretty_N_go_0|].
  rewrite pretty_N_go_step by done. apply IH; [by apply N.div_lt|].
  simpl. by rewrite is_digit_pretty_N_char.
Qed.

Lemma all_digits_pretty_N (k : N) : all_digits (pretty k) = true.
Proof.
  unfold pretty, pretty_N. case_decide; [done|].
  by apply all_digits_pretty_N_go.
Qed.

Lemma all_digits_pretty_nat (k : nat) : all_digits (pretty k) = true.
Proof. apply all_digits_pretty_N. Qed.

Lemma is_digit_sanitize (c : ascii) : is_digit c = true → sanitize_char c = c.
Proof.
  unfold is_digit. intros Hc%bool_decide_eq_true.
  repeat (apply elem_of_cons in Hc as [->|Hc]; [done|]).
  by apply elem_of_nil in Hc.
Qed.

Lemma all_digits_sanitize (s : string) : all_digits s = true → sanitize s = s.
Proof.
  induction s as [|c s IH]; simpl; [done|].
  intros [Hc Hs]%andb_true_iff. by rewrite is_digit_sanitize, IH.
Qed.

Lemma sanitize_app (s t : string) : sanitize (s +:+ t) = sanitize s +:+ sanitize t.
Proof. induction s as [|c s IH]; simpl; [done|]. by rewrite IH. Qed.

Lemma sanitize_pretty_nat (k : nat) : sanitize (pretty k) = pretty k.
Proof. apply all_digits_sanitize, all_digits_pretty_nat. Qed.

Lemma append_nil (t : string) : "" +:+ t = t.
Proof. reflexivity. Qed.

Lemma append_cons (c : ascii) (s t : string) : String c s +:+ t = String c (s +:+ t).
Proof. reflexivity. Qed.

(** A numeral followed by an underscore splits in one way only. *)
Lemma digits_split (d1 d2 t1 t2 : string) :
  all_digits d1 = true → all_digits d2 = true →
  d1 +:+ "_" +:+ t1 = d2 +:+ "_" +:+ t2 → d1 = d2 ∧ t1 = t2.
Proof.
  revert d2. induction d1 as [|c d1 IH]; intros [|c' d2]; simpl;
    repeat (rewrite append_nil || rewrite append_cons).
  - by intros _ _ [= ->].
  - intros _ [Hc _]%andb_true_iff [= <- _]. done.
  - intros [Hc _]%andb_true_iff _ [= -> _]. done.
  - intros [_ H1]%andb_true_iff [_ H2]%andb_true_iff [= -> Heq].
    destruct (IH _ H1 H2 Heq) as [-> ->]. done.
Qed.

Lemma sanitize_supply_name (i : nat) : sanitize (supply_name i) = supply_name i.
Proof. unfold supply_name. by rewrite sanitize_app, sanitize_pretty_nat. Qed.

Lemma sanitize_demand_name (j : nat) : sanitize (demand_name j) = demand_name j.
Proof. unfold demand_name. by rewrite sanitize_app, sanitize_pretty_nat. Qed.

Lemma sanitize_route_name (prefix : string) (ij : nat * nat) :
  sanitize prefix = prefix → sanitize (route_name prefix ij) = route_name prefix ij.
Proof.
  intros Hp. unfold route_name.
  by rewrite !sanitize_app, !sanitize_pretty_nat, Hp.
Qed.

Global Instance supply_name_inj : Inj (=) (=) supply_name.
Proof. intros i i' [= H]. by apply (inj pretty). Qed.

Global Instance demand_name_inj : Inj (=) (=) demand_name.
Proof. intros j j' [= H]. by apply (inj pretty). Qed.

Global Instance route_name_inj (prefix : string) : Inj (=) (=) (route_name prefix).
Proof.
  intros [i j] [i' j']. unfold route_name. simpl.
  intros H%(inj (String.append prefix)).
  apply digits_split in H as [Hi Hj]; [|apply all_digits_pretty_nat..].
  apply (inj pretty) in Hi, Hj. by subst.
Qed.

(** Different routes have differently named variables, so a reading by name
    is a reading by route. *)
Lemma x_var_name_inj (i j i' j' : nat) :
  name (x_var i j) = name (x_var i' j') → i = i' ∧ j = j'.
Proof.
  intros H. by apply (inj (route_name "x_") (i, j) (i', j')) in H as [= -> ->].
Qed.

(** ** Adding constraints only ever extends the problem *)

Global Instance extends_preorder : PreOrder extends.
Proof.
  split.
  - by intros p.
  - intros p1 p2 p3 (? & ? & ?) (? & ? & ?).
    split_and!; [congruence..|]. by etrans.
Qed.

Lemma extends_lookup (p p' : LpProblem) (nm : string) (c : LpConstraint) :
  extends p p' → constraints p !! nm = Some c → constraints p' !! nm = Some c.
Proof. intros (_ & _ & Hsub) ?. by eapply lookup_weaken. Qed.

Lemma addConstraint_Ok (p p' : LpProblem) (c : LpConstraint) (nm : string) :
  addConstraint p c nm = Ok p' →
  extends p p' ∧ constraints p' !! sanitize nm = Some c.
Proof.
  unfold addConstraint. cbv zeta.
  destruct (constraints p !! sanitize nm) eqn:E; [done|]. intros [= <-].
  split; [|apply lookup_insert_eq].
  split_and!; [done..|]. by apply insert_subseteq.
Qed.

Lemma addConstraint_fresh (p : LpProblem) (c : LpConstraint) (nm : string) :
  constraints p !! sanitize nm = None →
  addConstraint p c nm
  = Ok (mkProblem (prob_name p) (prob_sense p) (objective p)
          (<[sanitize nm := c]> (constraints p))).
Proof. unfold addConstraint. cbv zeta. by intros ->. Qed.

(** ** The loops of the builder, with the variable look-ups resolved *)

Lemma for_each_fmap {A B S} (g : A → B) (body : B → S → Exc S) (l : list A) (s : S) :
  for_each (g <$> l) body s = for_each l (λ y, body (g y)) s.
Proof.
  revert s. induction l as [|y l IH]; intros s; [done|]. simpl.
  destruct (body (g y) s); simpl; [apply IH|done].
Qed.

Lemma for_each_bind {A B S} (f : A → list B) (body : B → S → Exc S)
    (l : list A) (s : S) :
  for_each (l ≫= f) body s = for_each l (λ y s, for_each (f y) body s) s.
Proof.
  revert s. induction l as [|y l IH]; intros s; [done|]. csimpl.
  rewrite for_each_app. destruct (for_each (f y) body s); simpl; [apply IH|done].
Qed.

Lemma for_each_routes {S} (body : nat * nat → S → Exc S) (m n : nat) (s : S) :
  for_each (range m) (λ i s, for_each (range n) (λ j s, body (i, j) s) s) s
  = for_each (routes m n) body s.
Proof.
  unfold routes. rewrite for_each_bind. apply for_each_ext.
  intros i s' _. by rewrite for_each_fmap.
Qed.

Section Phases.
Variable a : Args.
Local Abbreviation m := (length (supply a)).
Local Abbreviation n := (length (demand a)).

Lemma add_supply_unfold (p : LpProblem) :
  add_supply a p
  = for_each (range m) (λ i p,
      s ← getitem (supply a) (Z.of_nat i);
      addConstraint p (mkConstraint (supply_lhs n i) LpConstraintLE s)
        (supply_name i)) p.
Proof.
  unfold add_supply. cbv zeta. apply for_each_ext.
  intros i p' Hi%elem_of_range.
  rewrite (mapM_Ok _ (λ j, of_var (x_var i j))); [done|].
  intros j Hj%elem_of_range. by rewrite getitem2_x.
Qed.

Lemma add_demand_unfold (p : LpProblem) :
  add_demand a p
  = for_each (range n) (λ j p,
      d ← getitem (demand a) (Z.of_nat j);
      addConstraint p (mkConstraint (demand_lhs m j) LpConstraintGE d)
        (demand_name j)) p.
Proof.
  unfold add_demand. cbv zeta. apply for_each_ext.
  intros j p' Hj%elem_of_range.
  rewrite (mapM_Ok _ (λ i, of_var (x_var i j))); [done|].
  intros i Hi%elem_of_range. by rewrite getitem2_x.
Qed.

Lemma add_route_bounds_unfold (M : list (list Q)) (sn : LpConstraintSense)
    (prefix : string) (p : LpProblem) :
  add_route_bounds a M sn prefix p
  = for_each (routes m n) (λ ij p,
      q ← getitem2 M (Z.of_nat ij.1) (Z.of_nat ij.2);
      addConstraint p (mkConstraint (of_var (x_var ij.1 ij.2)) sn q)
        (route_name prefix ij)) p.
Proof.
  unfold add_route_bounds. cbv zeta. rewrite <-for_each_routes.
  apply for_each_ext. intros i p1 Hi%elem_of_range.
  apply for_each_ext. intros j p2 Hj%elem_of_range.
  by rewrite getitem2_x.
Qed.

Lemma add_supply_post (p p' : LpProblem) :
  add_supply a p = Ok p' →
  extends p p' ∧
  ∀ i s, supply a !! i = Some s →
    constraints p' !! supply_name i
    = Some (mkConstraint (supply_lhs n i) LpConstraintLE s).
Proof.
  rewrite add_supply_unfold. intros Hrun.
  assert (∀ i q q', (s ← getitem (supply a) (Z.of_nat i);
      addConstraint q (mkConstraint (supply_lhs n i) LpConstraintLE s)
        (supply_name i)) = Ok q' → extends q q') as Hmono.
  { intros i q q' (s & _ & []%addConstraint_Ok)%bind_Ok. done. }
  split; [by eapply (for_each_mono extends), Hrun|].
  intros i s Hi.
  destruct (for_each_elem extends _ Hmono _ _ _ i Hrun)
    as (q & q' & _ & Hbody & Hext).
  { apply elem_of_range. by eapply lookup_lt_Some. }
  rewrite getitem_nat, Hi in Hbody. simpl in Hbody.
  apply addConstraint_Ok in Hbody as [_ Hbody].
  rewrite sanitize_supply_name in Hbody. by eapply extends_lookup.
Qed.

Lemma add_demand_post (p p' : LpProblem) :
  add_demand a p = Ok p' →
  extends p p' ∧
  ∀ j d, demand a !! j = Some d →
    constraints p' !! demand_name j
    = Some (mkConstraint (demand_lhs m j) LpConstraintGE d).
Proof.
  rewrite add_demand_unfold. intros Hrun.
  assert (∀ j q q', (d ← getitem (demand a) (Z.of_nat j);
      addConstraint q (mkConstraint (demand_lhs m j) LpConstraintGE d)
        (demand_name j)) = Ok q' → extends q q') as Hmono.
  { intros j q q' (d & _ & []%addConstraint_Ok)%bind_Ok. done. }
  split; [by eapply (for_each_mono extends), Hrun|].
  intros j d Hj.
  destruct (for_each_elem extends _ Hmono _ _ _ j Hrun)
    as (q & q' & _ & Hbody & Hext).
  { apply elem_of_range. by eapply lookup_lt_Some. }
  rewrite getitem_nat, Hj in Hbody. simpl in Hbody.
  apply addConstraint_Ok in Hbody as [_ Hbody].
  rewrite sanitize_demand_name in Hbody. by eapply extends_lookup.
Qed.

Lemma add_route_bounds_post (M : list (list Q)) (sn : LpConstraintSense)
    (prefix : string) (p p' : LpProblem) :
  sanitize prefix = prefix →
  add_route_bounds a M sn prefix p = Ok p' →
  extends p p' ∧
  ∀ i j, i < m → j < n →
    ∃ q, getitem2 M (Z.of_nat i) (Z.of_nat j) = Ok q ∧
         constraints p' !! route_name prefix (i, j)
         = Some (mkConstraint (of_var (x_var i j)) sn q).
Proof.
  intros Hprefix. rewrite add_route_bounds_unfold. intros Hrun.
  assert (∀ ij q q', (c ← getitem2 M (Z.of_nat ij.1) (Z.of_nat ij.2);
      addConstraint q (mkConstraint (of_var (x_var ij.1 ij.2)) sn c)
        (route_name prefix ij)) = Ok q' → extends q q') as Hmono.
  { intros ij q q' (c & _ & []%addConstraint_Ok)%bind_Ok. done. }
  split; [by eapply (for_each_mono extends), Hrun|].
  intros i j Hi Hj.
  destruct (for_each_elem extends _ Hmono _ _ _ (i, j) Hrun)
    as (q & q' & _ & Hbody & Hext).
  { by apply elem_of_routes. }
  apply bind_Ok in Hbody as (c & Hc & Hbody). exists c. split; [done|].
  apply addConstraint_Ok in Hbody as [_ Hbody].
  rewrite sanitize_route_name in Hbody by done. by eapply extends_lookup.
Qed.
Lemma getitem2_x_Ok (i j : Z) (v : LpVariable) :
  getitem2 (make_x m n) i j = Ok v →
  ∃ r c, position m i = Some r ∧ position n j = Some c ∧ v = x_var r c.
Proof.
  unfold getitem2, make_x, range.
  intros (row & (r & Hr & Hrow)%getitem_Ok & (c & Hc & Hv)%getitem_Ok)%bind_Ok.
  rewrite length_fmap, length_seq in Hr.
  apply list_lookup_fmap_Some in Hrow as (r' & -> & Hr').
  apply lookup_seq in Hr' as [-> _].
  rewrite length_fmap, length_seq in Hc.
  apply list_lookup_fmap_Some in Hv as (c' & -> & Hc').
  apply lookup_seq in Hc' as [-> _]. eauto.
Qed.

Lemma add_prohibited_unfold (p : LpProblem) :
  add_prohibited a p
  = match truthy (prohibited_routes a) with
    | Some l =>
        for_each l (λ ij p,
          v ← getitem2 (make_x m n) ij.1 ij.2;
          addConstraint p (mkConstraint (of_var v) LpConstraintEQ 0%Q)
            ("Prohibited_" +:+ pretty ij.1 +:+ "_" +:+ pretty ij.2)) p
    | None => Ok p
    end.
Proof.
  unfold add_prohibited. cbv zeta.
  destruct (truthy (prohibited_routes a)); [|done].
  apply for_each_ext. by intros [i j] ??.
Qed.

Lemma add_prohibited_post (p p' : LpProblem) :
  add_prohibited a p = Ok p' →
  extends p p' ∧
  ∀ l ij, truthy (prohibited_routes a) = Some l → ij ∈ l →
    ∃ r c, position m ij.1 = Some r ∧ position n ij.2 = Some c ∧
           constraints p' !! prohibited_name ij
           = Some (mkConstraint (of_var (x_var r c)) LpConstraintEQ 0%Q).
Proof.
  rewrite add_prohibited_unfold.
  destruct (truthy (prohibited_routes a)) as [l|]; [|by intros [= ->]].
  intros Hrun.
  assert (∀ (ij : Z * Z) q q', (v ← getitem2 (make_x m n) ij.1 ij.2;
      addConstraint q (mkConstraint (of_var v) LpConstraintEQ 0%Q)
        ("Prohibited_" +:+ pretty ij.1 +:+ "_" +:+ pretty ij.2)) = Ok q' →
      extends q q') as Hmono.
  { intros ij q q' (v & _ & []%addConstraint_Ok)%bind_Ok. done. }
  split; [by eapply (for_each_mono extends _ Hmono), Hrun|].
  intros ? ij [= <-] Hij.
  destruct (for_each_elem extends _ Hmono _ _ _ ij Hrun Hij)
    as (q & q' & _ & Hbody & Hext).
  apply bind_Ok in Hbody as (v & (r & c & ? & ? & ->)%getitem2_x_Ok & Hbody).
  exists r, c. split_and!; [done..|].
  apply addConstraint_Ok in Hbody as [_ Hbody]. by eapply extends_lookup.
Qed.

Lemma truthy_Some {A} (o : option (list A)) (l : list A) :
  truthy o = Some l ↔ o = Some l ∧ l ≠ [].
Proof.
  destruct o as [[|y l']|]; simpl; split; try done.
  - by intros [[= <-] ?].
  - by intros [= <-].
  - by intros [[= <-] _].
  - by intros [[=] _].
Qed.

(** The six steps of a successful build. *)
Lemma build_model_Ok_inv (prob : LpProblem) :
  build_model a = Ok prob →
  ∃ p1 p2 p3 p4 p5,
    add_objective a (LpProblem_new "Transportation_Problem" LpMinimize) = Ok p1 ∧
    add_supply a p1 = Ok p2 ∧ add_demand a p2 = Ok p3 ∧
    add_capacities a p3 = Ok p4 ∧ add_route_minimums a p4 = Ok p5 ∧
    add_prohibited a p5 = Ok prob.
Proof.
  unfold build_model.
  intros (p1 & ? & (p2 & ? & (p3 & ? & (p4 & ? & (p5 & ? & ?)%bind_Ok)
    %bind_Ok)%bind_Ok)%bind_Ok)%bind_Ok.
  by exists p1, p2, p3, p4, p5.
Qed.

Lemma add_capacities_post (p p' : LpProblem) :
  add_capacities a p = Ok p' →
  extends p p' ∧
  ∀ M i j, truthy (capacities a) = Some M → i < m → j < n →
    ∃ q, getitem2 M (Z.of_nat i) (Z.of_nat j) = Ok q ∧
         constraints p' !! route_name "Capacity_" (i, j)
         = Some (mkConstraint (of_var (x_var i j)) LpConstraintLE q).
Proof.
  unfold add_capacities.
  destruct (truthy (capacities a)) as [M|]; [|by intros [= ->]].
  intros [? H]%add_route_bounds_post; [|done].
  split; [done|]. intros ? i j [= <-]. apply H.
Qed.

Lemma add_route_minimums_post (p p' : LpProblem) :
  add_route_minimums a p = Ok p' →
  extends p p' ∧
  ∀ M i j, truthy (route_minimums a) = Some M → i < m → j < n →
    ∃ q, getitem2 M (Z.of_nat i) (Z.of_nat j) = Ok q ∧
         constraints p' !! route_name "RouteMin_" (i, j)
         = Some (mkConstraint (of_var (x_var i j)) LpConstraintGE q).
Proof.
  unfold add_route_minimums.
  destruct (truthy (route_minimums a)) as [M|]; [|by intros [= ->]].
  intros [? H]%add_route_bounds_post; [|done].
  split; [done|]. intros ? i j [= <-]. apply H.
Qed.

Lemma mapM_Ok_inv {A B} (f : A → Exc B) (l : list A) (bs : list B) :
  mapM f l = Ok bs → Forall2 (λ y b, f y = Ok b) l bs.
Proof.
  revert bs. induction l as [|y l IH]; intros bs; simpl.
  - intros [= <-]. constructor.
  - intros (b & ? & (bs' & ? & [= <-])%bind_Ok)%bind_Ok.
    constructor; auto.
Qed.

Lemma Forall2_impl_elem {A B} (P R : A → B → Prop) (l : list A) (k : list B) :
  Forall2 P l k → (∀ y b, y ∈ l → P y b → R y b) → Forall2 R l k.
Proof.
  induction 1 as [|y b l k ? ? IH]; intros HPR; constructor.
  - apply HPR; [left|done].
  - apply IH. intros ????. apply HPR; [by right|done].
Qed.

(** The objective: one product per route, in the order of the loops. *)
Lemma add_objective_post (p p' : LpProblem) :
  add_objective a p = Ok p' →
  prob_sense p' = prob_sense p ∧ constraints p' = constraints p ∧
  ∃ es, objective p' = lpSum es ∧
    Forall2 (λ ij e, ∃ c, getitem2 (costs a) (Z.of_nat ij.1) (Z.of_nat ij.2) = Ok c ∧
                          e = mul c (x_var ij.1 ij.2)) (routes m n) es.
Proof.
  unfold add_objective. cbv zeta.
  intros (es & Hes%mapM_Ok_inv & [= <-])%bind_Ok.
  split_and!; [done..|]. exists es. split; [done|].
  eapply Forall2_impl_elem; [done|]. cbv beta.
  intros [i j] e [Hi Hj]%elem_of_routes (c & Hc & Hv)%bind_Ok.
  rewrite getitem2_x in Hv by done. simplify_eq/=. eauto.
Qed.
End Phases.

(** ** Values of expressions and validity of constraints *)

Lemma Qsum_app (l k : list Q) : (Qsum (l ++ k) == Qsum l + Qsum k)%Q.
Proof.
  induction l as [|q l IH]; simpl.
  - by rewrite Qplus_0_l.
  - by rewrite IH, Qplus_assoc.
Qed.

Lemma Qsum_cons (q : Q) (l : list Q) : Qsum (q :: l) = (q + Qsum l)%Q.
Proof. reflexivity. Qed.

Lemma eval_cons (vals : string → option Q) (v : LpVariable) (c : Q)
    (e : LpAffineExpression) :
  eval vals ((v, c) :: e) = (default 0%Q (vals (name v)) * c + eval vals e)%Q.
Proof. reflexivity. Qed.

Lemma lpSum_cons_var (v : LpVariable) (es : list LpAffineExpression) :
  lpSum (of_var v :: es) = (v, 1%Q) :: lpSum es.
Proof. reflexivity. Qed.

Lemma eval_app (vals : string → option Q) (e1 e2 : LpAffineExpression) :
  (eval vals (e1 ++ e2) == eval vals e1 + eval vals e2)%Q.
Proof. unfold eval. rewrite fmap_app. apply Qsum_app. Qed.

Lemma value_from_Some (vals : string → option Q) (s q : Q) (e : LpAffineExpression) :
  value_from vals s e = Some q →
  (q == s + eval vals e)%Q ∧ ∀ vc, vc ∈ e → is_Some (vals (name vc.1)).
Proof.
  revert s. induction e as [|[v c] e IH]; intros s; simpl.
  - intros [= <-]. split.
    + unfold eval. simpl. by rewrite Qplus_0_r.
    + by intros ? ?%elem_of_nil.
  - destruct (vals (name v)) as [r|] eqn:E; [|done].
    intros [Hq Hall]%IH. split.
    + rewrite Hq. unfold eval. simpl. rewrite E. simpl.
      by rewrite Qplus_assoc.
    + intros vc [->|?]%elem_of_cons; [|by apply Hall]. simpl. by rewrite E.
Qed.

Lemma value_from_is_Some (vals : string → option Q) (s : Q) (e : LpAffineExpression) :
  (∀ vc, vc ∈ e → is_Some (vals (name vc.1))) → is_Some (value_from vals s e).
Proof.
  revert s. induction e as [|[v c] e IH]; intros s Hall; simpl; [done|].
  destruct (Hall (v, c)) as [r Hr]; [left|]. simpl in Hr. rewrite Hr.
  apply IH. intros ??. apply Hall. by right.
Qed.

Lemma value_Some (vals : string → option Q) (q : Q) (e : LpAffineExpression) :
  value vals e = Some q →
  (q == eval vals e)%Q ∧ ∀ vc, vc ∈ e → is_Some (vals (name vc.1)).
Proof.
  intros [Hq ?]%value_from_Some. split; [|done]. by rewrite Hq, Qplus_0_l.
Qed.

Lemma compare_proper (sn : LpConstraintSense) (l l' r : Q) :
  (l == l')%Q → compare sn l r ↔ compare sn l' r.
Proof. intros H. destruct sn; simpl; by rewrite H. Qed.

(** A sum of variables, each with coefficient 1, against a constant. *)
Lemma eval_row {A} (vals : string → option Q) (f : A → LpVariable) (l : list A) :
  (eval vals (lpSum ((λ y, of_var (f y)) <$> l))
   == Qsum ((λ y, default 0%Q (vals (name (f y)))) <$> l))%Q.
Proof.
  induction l as [|y l IH]; [done|].
  rewrite !fmap_cons, lpSum_cons_var, eval_cons, Qsum_cons, IH.
  by rewrite Qmult_1_r.
Qed.

Lemma elem_of_row {A} (f : A → LpVariable) (l : list A) (vc : LpVariable * Q) :
  vc ∈ lpSum ((λ y, of_var (f y)) <$> l) ↔ ∃ y, y ∈ l ∧ vc = (f y, 1%Q).
Proof.
  unfold lpSum. induction l as [|y l IH]; simpl.
  - rewrite elem_of_nil. split; [done|]. by intros (? & []%elem_of_nil & _).
  - rewrite elem_of_cons, IH. split.
    + intros [->|(z & ? & ->)]; [exists y|exists z]; split; try done;
        [left|by right].
    + intros (z & [->|?]%elem_of_cons & ->); [by left|right; eauto].
Qed.

Lemma valid_row {A} (vals : string → option Q) (f : A → LpVariable) (l : list A)
    (sn : LpConstraintSense) (r : Q) :
  valid vals (mkConstraint (lpSum ((λ y, of_var (f y)) <$> l)) sn r) ↔
  (∀ y, y ∈ l → is_Some (vals (name (f y)))) ∧
  compare sn (Qsum ((λ y, default 0%Q (vals (name (f y)))) <$> l)) r.
Proof.
  unfold valid. simpl.
  destruct (value vals _) as [q|] eqn:E.
  - apply value_Some in E as [Hq Hall].
    rewrite (compare_proper _ _ _ _ Hq), (compare_proper _ _ _ _ (eval_row _ _ _)).
    split; [|by intros [_ ?]]. intros Hcmp. split; [|done].
    intros y Hy. apply (Hall (f y, 1%Q)), elem_of_row. eauto.
  - split; [done|]. intros [Hall _].
    destruct (value_from_is_Some vals 0%Q
                (lpSum ((λ y, of_var (f y)) <$> l))) as [q Hq].
    + intros vc (y & ? & ->)%elem_of_row. by apply Hall.
    + unfold value in E. congruence.
Qed.

Lemma valid_supply_row (vals : string → option Q) (n i : nat) (s : Q) :
  valid vals (mkConstraint (supply_lhs n i) LpConstraintLE s) ↔
  (∀ j, j < n → is_Some (vals (name (x_var i j)))) ∧ (outflow vals n i <= s)%Q.
Proof.
  unfold supply_lhs. rewrite valid_row. by setoid_rewrite elem_of_range.
Qed.

Lemma valid_demand_row (vals : string → option Q) (m j : nat) (d : Q) :
  valid vals (mkConstraint (demand_lhs m j) LpConstraintGE d) ↔
  (∀ i, i < m → is_Some (vals (name (x_var i j)))) ∧ (d <= inflow vals m j)%Q.
Proof.
  unfold demand_lhs.
  rewrite (valid_row vals (λ i, x_var i j)). by setoid_rewrite elem_of_range.
Qed.

Lemma valid_var (vals : string → option Q) (v : LpVariable)
    (sn : LpConstraintSense) (r : Q) :
  valid vals (mkConstraint (of_var v) sn r) ↔
  ∃ q, vals (name v) = Some q ∧ compare sn q r.
Proof.
  unfold valid, value. simpl. destruct (vals (name v)) as [q|]; simpl.
  - rewrite (compare_proper sn (0 + q * 1)%Q q) by ring. split; [eauto|].
    by intros (? & [= <-] & ?).
  - split; [done|]. by intros (? & [=] & _).
Qed.

(** ** What a successful build contains *)

Lemma getitem2_nat {A} (M : list (list A)) (i j : nat) (q : A) :
  getitem2 M (Z.of_nat i) (Z.of_nat j) = Ok q ↔ M !! i ≫= (.!! j) = Some q.
Proof.
  unfold getitem2. rewrite getitem_nat.
  destruct (M !! i) as [row|]; simpl; [|done].
  rewrite getitem_nat. destruct (row !! j); simpl; [|done].
  split; by intros [= ->].
Qed.

Ltac build_steps H :=
  let p1 := fresh "p" in let p2 := fresh "p" in let p3 := fresh "p" in
  let p4 := fresh "p" in let p5 := fresh "p" in
  apply build_model_Ok_inv in H
    as (p1 & p2 & p3 & p4 & p5 & Hobj & Hsup & Hdem & Hcap & Hmin & Hpro);
  apply add_objective_post in Hobj as (Hsense & Hcons & Hobj);
  apply add_supply_post in Hsup as [Hext_sup Hsup];
  apply add_demand_post in Hdem as [Hext_dem Hdem];
  apply add_capacities_post in Hcap as [Hext_cap Hcap];
  apply add_route_minimums_post in Hmin as [Hext_min Hmin];
  apply add_prohibited_post in Hpro as [Hext_pro Hpro].

Section Built.
Variables (a : Args) (prob : LpProblem).
Hypothesis Hbuild : build_model a = Ok prob.
Local Abbreviation m := (length (supply a)).
Local Abbreviation n := (length (demand a)).


Lemma build_objective :
  ∃ es, objective prob = lpSum es ∧
    Forall2 (λ ij e, ∃ c, costs a !! ij.1 ≫= (.!! ij.2) = Some c ∧
                          e = mul c (x_var ij.1 ij.2)) (routes m n) es.
Proof using Hbuild.
  build_steps Hbuild. destruct Hobj as (es & Hes & Hall). exists es. split.
  - destruct Hext_pro as (_ & <- & _), Hext_min as (_ & <- & _),
      Hext_cap as (_ & <- & _), Hext_dem as (_ & <- & _),
      Hext_sup as (_ & <- & _). done.
  - eapply Forall2_impl; [done|]. intros ij e (c & ?%getitem2_nat & ->). eauto.
Qed.

Lemma build_supply_row (i : nat) (s : Q) :
  supply a !! i = Some s →
  constraints prob !! supply_name i
  = Some (mkConstraint (supply_lhs n i) LpConstraintLE s).
Proof using Hbuild.
  build_steps Hbuild. intros ?%Hsup.
  by do 4 (eapply extends_lookup; [done|]).
Qed.

Lemma build_demand_row (j : nat) (d : Q) :
  demand a !! j = Some d →
  constraints prob !! demand_name j
  = Some (mkConstraint (demand_lhs m j) LpConstraintGE d).
Proof using Hbuild.
  build_steps Hbuild. intros ?%Hdem.
  by do 3 (eapply extends_lookup; [done|]).
Qed.

Lemma build_capacity (M : list (list Q)) (i j : nat) :
  capacities a = Some M → M ≠ [] → i < m → j < n →
  ∃ q, M !! i ≫= (.!! j) = Some q ∧
       constraints prob !! route_name "Capacity_" (i, j)
       = Some (mkConstraint (of_var (x_var i j)) LpConstraintLE q).
Proof using Hbuild.
  build_steps Hbuild. intros HM Hne Hi Hj.
  destruct (Hcap M i j) as (q & Hq%getitem2_nat & Hc); [|done..|].
  { by apply truthy_Some. }
  exists q. split; [done|]. by do 2 (eapply extends_lookup; [done|]).
Qed.

Lemma build_minimum (M : list (list Q)) (i j : nat) :
  route_minimums a = Some M → M ≠ [] → i < m → j < n →
  ∃ q, M !! i ≫= (.!! j) = Some q ∧
       constraints prob !! route_name "RouteMin_" (i, j)
       = Some (mkConstraint (of_var (x_var i j)) LpConstraintGE q).
Proof using Hbuild.
  build_steps Hbuild. intros HM Hne Hi Hj.
  destruct (Hmin M i j) as (q & Hq%getitem2_nat & Hc); [|done..|].
  { by apply truthy_Some. }
  exists q. split; [done|]. by eapply extends_lookup.
Qed.

Lemma build_prohibited (l : list (Z * Z)) (ij : Z * Z) :
  prohibited_routes a = Some l → ij ∈ l →
  ∃ r c, position m ij.1 = Some r ∧ position n ij.2 = Some c ∧
         constraints prob !! prohibited_name ij
         = Some (mkConstraint (of_var (x_var r c)) LpConstraintEQ 0%Q).
Proof using Hbuild.
  build_steps Hbuild. intros Hl Hij. apply (Hpro l); [|done].
  apply truthy_Some. split; [done|]. intros ->. by apply elem_of_nil in Hij.
Qed.
End Built.

(** The variables of a stored constraint are variables of the problem. *)
Lemma elem_of_lp_variables (prob : LpProblem) (nm : string) (c : LpConstraint)
    (v : LpVariable) (k : Q) :
  constraints prob !! nm = Some c → (v, k) ∈ lhs c → v ∈ lp_variables prob.
Proof.
  intros Hc Hv. unfold lp_variables. apply elem_of_app. right.
  apply list_elem_of_bind. exists (nm, c). split.
  - apply list_elem_of_fmap. by exists (v, k).
  - by apply elem_of_map_to_list.
Qed.

Lemma feasible_valid (vals : string → option Q) (prob : LpProblem) (nm : string)
    (c : LpConstraint) :
  feasible vals prob → constraints prob !! nm = Some c → valid vals c.
Proof. intros [Hall _] Hc. by apply (Hall nm c). Qed.

Lemma feasible_in_bounds (vals : string → option Q) (prob : LpProblem) (nm : string)
    (c : LpConstraint) (v : LpVariable) (k : Q) :
  feasible vals prob → constraints prob !! nm = Some c → (v, k) ∈ lhs c →
  in_bounds vals v.
Proof.
  intros [_ Hall] Hc Hv. eapply Forall_forall in Hall; [done|].
  by eapply elem_of_lp_variables.
Qed.

(** Every decision variable is bounded below by 0. *)
Lemma in_bounds_x_var (vals : string → option Q) (i j : nat) :
  in_bounds vals (x_var i j) ↔ ∃ q, vals (name (x_var i j)) = Some q ∧ (0 <= q)%Q.
Proof.
  unfold in_bounds. destruct (vals (name (x_var i j))) as [q|]; simpl.
  - split; [intros [? _]; eauto|]. by intros (? & [= <-] & ?).
  - split; [done|]. by intros (? & [=] & _).
Qed.

(** ** The returned dictionary *)

Lemma for_each_insert {K V} `{Countable K} (g : K → V) (l : list K) (d : gmap K V) :
  ∃ d', for_each l (λ k d, Ok (<[k := g k]> d)) d = Ok d' ∧
        ∀ k, d' !! k = if decide (k ∈ l) then Some (g k) else d !! k.
Proof.
  revert d. induction l as [|y l IH]; intros d.
  - exists d. split; [done|]. intros k.
    destruct (decide (k ∈ [])) as [Hk|_]; [|done]. by apply elem_of_nil in Hk.
  - destruct (IH (<[y := g y]> d)) as (d' & Hrun & Hd'). exists d'.
    split; [by simpl|].
    intros k. rewrite Hd'.
    destruct (decide (k ∈ l)) as [Hk|Hk], (decide (k ∈ y :: l)) as [Hk'|Hk'];
      try done.
    + destruct Hk'. by right.
    + apply elem_of_cons in Hk' as [->|?]; [|done]. by rewrite lookup_insert_eq.
    + apply lookup_insert_ne. intros ->. apply Hk'. left.
Qed.

Lemma read_variables_Ok (a : Args) (vals : string → option Q) :
  ∃ d, read_variables a vals = Ok d ∧
    ∀ i j, d !! (i, j)
           = if decide (i < length (supply a) ∧ j < length (demand a))
             then Some (vals (name (x_var i j))) else None.
Proof.
  unfold read_variables. cbv zeta.
  destruct (for_each_insert (λ ij, vals (name (x_var ij.1 ij.2)))
              (routes (length (supply a)) (length (demand a))) ∅)
    as (d & Hd & Hlook).
  exists d. split.
  - rewrite <-Hd. apply for_each_ext.
    intros [i j] d' [??]%elem_of_routes. by rewrite getitem2_x.
  - intros i j. rewrite Hlook, lookup_empty.
    apply decide_ext, elem_of_routes.
Qed.

(** No decision variable is PuLP's [__dummy], so each holds the value the
    solver reports for it. *)
Lemma assignVarsVals_x_var (vals : string → option Q) (i j : nat) :
  assignVarsVals vals (name (x_var i j)) = vals (name (x_var i j)).
Proof.
  unfold assignVarsVals. apply decide_False. unfold x_var. simpl.
  rewrite !append_cons. discriminate.
Qed.

Lemma read_variables_assigned (a : Args) (vals : string → option Q) :
  read_variables a (assignVarsVals vals) = read_variables a vals.
Proof.
  destruct (read_variables_Ok a (assignVarsVals vals)) as (d & -> & Hd).
  destruct (read_variables_Ok a vals) as (d' & -> & Hd').
  f_equal. apply map_eq. intros [i j].
  by rewrite Hd, Hd', assignVarsVals_x_var.
Qed.

(** A run that returns went through the build, one solver call and the
    status table. *)
Lemma solve_transportation_Ok (solver : LpProblem → SolverOutcome) (a : Args)
    (sol : Solution) :
  outcome (solve_transportation solver a) = Ok sol ↔
  ∃ prob, build_model a = Ok prob ∧
    solver_calls (solve_transportation solver a) = [prob] ∧
    LpStatus !! raw_status (solver prob) = Some (status sol) ∧
    total_cost sol = value (assignVarsVals (varValue (solver prob)))
                       (restoreObjective (objective prob)) ∧
    read_variables a (varValue (solver prob)) = Ok (variables sol).
Proof.
  unfold solve_transportation. destruct (build_model a) as [prob|e]; simpl.
  - unfold make_solution. cbv zeta. rewrite read_variables_assigned. split.
    + intros (st & Hst & (vars & Hvars & [= <-])%bind_Ok)%bind_Ok.
      exists prob. split_and!; try done. simpl.
      by destruct (LpStatus !! raw_status (solver prob)); simplify_eq.
    + intros (? & [= <-] & _ & -> & Htc & ->). simpl.
      destruct sol as [st tc vars]. simpl in *. by rewrite Htc.
  - split; [done|]. by intros (? & [=] & _).
Qed.

(** The models handed to the solver are exactly the models built. *)
Lemma solver_calls_build (solver : LpProblem → SolverOutcome) (a : Args)
    (prob : LpProblem) :
  prob ∈ solver_calls (solve_transportation solver a) ↔ build_model a = Ok prob.
Proof.
  unfold solve_transportation. destruct (build_model a) as [prob'|e]; simpl.
  - rewrite list_elem_of_singleton. split; [by intros ->|by intros [= ->]].
  - rewrite elem_of_nil. split; [done|by intros [=]].
Qed.

Lemma solution_variables (solver : LpProblem → SolverOutcome) (a : Args)
    (prob : LpProblem) (sol : Solution) (i j : nat) :
  build_model a = Ok prob →
  outcome (solve_transportation solver a) = Ok sol →
  variables sol !! (i, j)
  = if decide (i < length (supply a) ∧ j < length (demand a))
    then Some (varValue (solver prob) (name (x_var i j))) else None.
Proof.
  intros Hb (prob' & Hb' & _ & _ & _ & Hvars)%solve_transportation_Ok.
  assert (prob' = prob) as -> by congruence.
  destruct (read_variables_Ok a (varValue (solver prob))) as (d & Hd & Hlook).
  assert (d = variables sol) as -> by congruence. apply Hlook.
Qed.

(** The status table has five entries. *)
Lemma LpStatus_lookup (k : Z) (st : string) :
  LpStatus !! k = Some st ↔
  (k = 0%Z ∧ st = "Not Solved") ∨ (k = 1%Z ∧ st = "Optimal") ∨
  (k = (-1)%Z ∧ st = "Infeasible") ∨ (k = (-2)%Z ∧ st = "Unbounded") ∨
  (k = (-3)%Z ∧ st = "Undefined").
Proof.
  unfold LpStatus. rewrite !lookup_insert_Some, lookup_singleton_Some.
  split; [|intros [H|[H|[H|[H|H]]]]; destruct H as [-> ->]; intuition done].
  intuition auto.
Qed.

(** Whenever the build succeeds and the solver's status is in the table, the
    function returns. *)
Lemma solve_transportation_returns (solver : LpProblem → SolverOutcome)
    (a : Args) (prob : LpProblem) (st : string) :
  build_model a = Ok prob →
  LpStatus !! raw_status (solver prob) = Some st →
  ∃ sol, solve_transportation solver a = mkRun [prob] (Ok sol) ∧ status sol = st.
Proof.
  intros Hb Hst. unfold solve_transportation, make_solution. cbv zeta.
  rewrite Hb, Hst, read_variables_assigned.
  destruct (read_variables_Ok a (varValue (solver prob))) as (d & -> & _).
  simpl. eauto.
Qed.

(** ** The boolean checks decide the propositions *)

Lemma compareb_true (sn : LpConstraintSense) (l r : Q) :
  compareb sn l r = true ↔ compare sn l r.
Proof.
  destruct sn; simpl; [apply Qle_bool_iff|apply Qeq_bool_iff|apply Qle_bool_iff].
Qed.

Lemma validb_true (vals : string → option Q) (c : LpConstraint) :
  validb vals c = true ↔ valid vals c.
Proof.
  unfold validb, valid. destruct (value vals (lhs c)); [apply compareb_true|done].
Qed.

Lemma in_boundsb_true (vals : string → option Q) (v : LpVariable) :
  in_boundsb vals v = true ↔ in_bounds vals v.
Proof.
  unfold in_boundsb, in_bounds. destruct (vals (name v)) as [q|]; [|done].
  rewrite andb_true_iff.
  destruct (lowBound v), (upBound v); simpl; rewrite ?Qle_bool_iff; tauto.
Qed.

Lemma feasibleb_true (vals : string → option Q) (prob : LpProblem) :
  feasibleb vals prob = true ↔ feasible vals prob.
Proof.
  unfold feasibleb, feasible.
  rewrite andb_true_iff, map_Forall_to_list, !forallb_forall, !Forall_forall.
  setoid_rewrite <-list_elem_of_In. setoid_rewrite validb_true.
  setoid_rewrite in_boundsb_true. split; intros [H1 H2]; (split; [|done]).
  - by intros [nm c] ?%H1.
  - intros [nm c] ?. by apply (H1 (nm, c)).
Qed.

Lemma example_build : build_model example_args = Ok example_model.
Proof. vm_compute. reflexivity. Qed.

(** ** Supply and demand rows (claim C1) *)

(** C1: in every model that [solve_transportation] builds, origin [i] has the
    row [Supply_i], which bounds the total outflow of [i] from above by
    [supply[i]], and destination [j] has the row [Demand_j], which bounds the
    total inflow of [j] from below by [demand[j]].  Both are inequalities: a
    reading that leaves supply unused or delivers more than the demand keeps
    the rows valid. *)
Theorem supply_upper_demand_lower (a : Args) (prob : LpProblem) :
  build_model a = Ok prob →
  supply_is_upper_bound a prob ∧ demand_is_lower_bound a prob.
Proof.
  intros Hbuild. split.
  - intros i s Hs. eexists. split; [by apply build_supply_row|].
    split_and!; [done..|]. intros vals. apply valid_supply_row.
  - intros j d Hd. eexists. split; [by apply build_demand_row|].
    split_and!; [done..|]. intros vals. apply valid_demand_row.
Qed.

Lemma supply_upper_demand_lower_witness :
  build_model example_args = Ok example_model ∧
  supply_is_upper_bound example_args example_model ∧
  demand_is_lower_bound example_args example_model.
Proof.
  split; [vm_compute; reflexivity|].
  apply supply_upper_demand_lower. vm_compute. reflexivity.
Defined.

(** ** Prohibited routes (claim C2) *)

(** C2: for every prohibited route (i, j) passed to the function, the built
    model holds the row [Prohibited_i_j], which says x[i][j] = 0 (with
    Python's reading of the indices), that is, 0 <= x[i][j] <= 0; and in any
    returned result with status Optimal whose values satisfy the model, the
    value reported for that route is 0. *)
Theorem prohibited_route_is_zero (solver : LpProblem → SolverOutcome)
    (a : Args) (prob : LpProblem) (l : list (Z * Z)) (ij : Z * Z) :
  build_model a = Ok prob → prohibited_routes a = Some l → ij ∈ l →
  prohibited_route_spec solver a prob ij.
Proof.
  intros Hbuild Hl Hij.
  destruct (build_prohibited a prob Hbuild l ij Hl Hij) as (r & c & Hr & Hc & Hrow).
  exists r, c. split_and!; [done..| |].
  - intros vals. rewrite valid_var. simpl. split.
    + intros (v & ? & Hv). exists v. split; [done|].
      split; apply Qle_lteq; right; [by symmetry|done].
    + intros (v & ? & ? & ?). exists v. split; [done|]. by apply Qle_antisym.
  - intros sol Hsol _ Hfeas.
    rewrite (solution_variables solver a prob) by done.
    apply position_lt in Hr, Hc. rewrite decide_True by done.
    apply (feasible_valid _ _ _ _ Hfeas), valid_var in Hrow as (v & -> & Hv).
    by exists v.
Qed.

Lemma example_feasible :
  feasible (varValue (example_solver example_model)) example_model.
Proof. apply feasibleb_true. vm_compute. reflexivity. Qed.

Lemma prohibited_route_is_zero_witness :
  build_model example_args = Ok example_model ∧
  prohibited_routes example_args = Some [(0, 1); (-1, 0)]%Z ∧
  (-1, 0)%Z ∈ [(0, 1); (-1, 0)]%Z ∧
  outcome (solve_transportation example_solver example_args) = Ok example_solution ∧
  status example_solution = "Optimal" ∧
  feasible (varValue (example_solver example_model)) example_model ∧
  prohibited_route_spec example_solver example_args example_model (-1, 0)%Z.
Proof.
  assert (build_model example_args = Ok example_model) as Hbuild
    by (vm_compute; reflexivity).
  assert ((-1, 0)%Z ∈ [(0, 1); (-1, 0)]%Z) as Hin by (right; left).
  split; [exact Hbuild|]. split; [reflexivity|]. split; [exact Hin|].
  split; [vm_compute; reflexivity|]. split; [reflexivity|].
  split; [exact example_feasible|].
  exact (prohibited_route_is_zero example_solver example_args example_model
           _ _ Hbuild eq_refl Hin).
Defined.

(** ** Capacities and minimums (claim C10) *)

(** C10: when a non-empty capacities (respectively minimums) matrix is
    passed, the built model bounds x[i][j] above by [capacities[i][j]]
    (respectively below by [route_minimums[i][j]]) on every one of the m×n
    routes; a capacity of 0, with the lower bound 0 of the variable, leaves 0
    as the only feasible value on that route. *)
Theorem route_bounds_on_every_route (a : Args) (prob : LpProblem) :
  build_model a = Ok prob →
  capacity_on_every_route a prob ∧ minimum_on_every_route a prob.
Proof.
  intros Hbuild. split.
  - intros M i j HM Hne Hi Hj.
    destruct (build_capacity a prob Hbuild M i j HM Hne Hi Hj) as (q & Hq & Hrow).
    exists q. split_and!; [done..| |].
    + intros vals. apply valid_var.
    + intros Hzero vals Hfeas.
      pose proof (feasible_valid _ _ _ _ Hfeas Hrow) as (v & Hv & Hle)%valid_var.
      pose proof (feasible_in_bounds _ _ _ _ (x_var i j) 1%Q Hfeas Hrow)
        as (v' & Hv' & Hge)%in_bounds_x_var; [|left].
      assert (v' = v) as -> by congruence. simpl in Hle.
      exists v. split; [done|]. apply Qle_antisym; [|done]. by rewrite <-Hzero.
  - intros M i j HM Hne Hi Hj.
    destruct (build_minimum a prob Hbuild M i j HM Hne Hi Hj) as (q & Hq & Hrow).
    exists q. split_and!; [done..|]. intros vals. apply valid_var.
Qed.

Lemma route_bounds_on_every_route_witness :
  build_model example_args = Ok example_model ∧
  capacity_on_every_route example_args example_model ∧
  minimum_on_every_route example_args example_model.
Proof.
  split; [vm_compute; reflexivity|].
  apply route_bounds_on_every_route. vm_compute. reflexivity.
Defined.

(** ** Total cost (claim C3) *)

Lemma eval_mul (vals : string → option Q) (c : Q) (i j : nat) :
  (eval vals (mul c (x_var i j)) == c * shipment vals i j)%Q.
Proof.
  unfold mul. destruct (Qeq_bool c 0) eqn:E.
  - apply Qeq_bool_iff in E. rewrite E. unfold eval. simpl. ring.
  - rewrite eval_cons. unfold eval, shipment. simpl. ring.
Qed.

Lemma objective_terms (a : Args) (vals : string → option Q)
    (l : list (nat * nat)) (es : list LpAffineExpression) :
  Forall2 (λ ij e, ∃ c, costs a !! ij.1 ≫= (.!! ij.2) = Some c ∧
                        e = mul c (x_var ij.1 ij.2)) l es →
  (eval vals (lpSum es)
   == Qsum ((λ ij, cost_at a ij.1 ij.2 * shipment vals ij.1 ij.2)%Q <$> l))%Q ∧
  ∀ vc, vc ∈ lpSum es → ∃ ij, ij ∈ l ∧ vc.1 = x_var ij.1 ij.2.
Proof.
  unfold lpSum.
  induction 1 as [|ij e l es (c & Hc & ->) _ [IHeval IHin]]; simpl.
  - split; [done|]. by intros ? ?%elem_of_nil.
  - split.
    + rewrite eval_app, eval_mul, IHeval. unfold cost_at. by rewrite Hc.
    + intros vc [Hvc|Hvc]%elem_of_app.
      * exists ij. split; [left|]. unfold mul in Hvc.
        destruct (Qeq_bool c 0); [by apply elem_of_nil in Hvc|].
        by apply list_elem_of_singleton in Hvc as ->.
      * destruct (IHin vc Hvc) as (ij' & ? & ?). exists ij'. split; [by right|done].
Qed.

Lemma Qsum_fmap_ext {A} (f g : A → Q) (l : list A) :
  (∀ y, y ∈ l → f y = g y) → Qsum (f <$> l) = Qsum (g <$> l).
Proof.
  induction l as [|y l IH]; intros Hfg; [done|]. simpl.
  rewrite (Hfg y) by left. f_equal. apply IH. intros ??. apply Hfg. by right.
Qed.

(** The terms of a sum of cost times variable: one per route whose cost is
    not 0. *)
Lemma elem_of_cost_terms (a : Args) (l : list (nat * nat))
    (es : list LpAffineExpression) (vc : LpVariable * Q) :
  Forall2 (λ ij e, ∃ c, costs a !! ij.1 ≫= (.!! ij.2) = Some c ∧
                        e = mul c (x_var ij.1 ij.2)) l es →
  vc ∈ lpSum es ↔
  ∃ ij, ij ∈ l ∧ ¬ (cost_at a ij.1 ij.2 == 0)%Q ∧
        vc = (x_var ij.1 ij.2, cost_at a ij.1 ij.2).
Proof.
  unfold lpSum.
  induction 1 as [|ij e l es (c & Hc & ->) _ IH]; simpl.
  - split; [by intros ?%elem_of_nil|by intros (? & ?%elem_of_nil & _)].
  - assert (cost_at a ij.1 ij.2 = c) as Hcost by (unfold cost_at; by rewrite Hc).
    rewrite elem_of_app, IH. unfold mul. split.
    + intros [Hvc|(ij' & ? & ?)]; [|exists ij'; split; [by right|done]].
      destruct (Qeq_bool c 0) eqn:E; [by apply elem_of_nil in Hvc|].
      apply list_elem_of_singleton in Hvc as ->.
      exists ij. rewrite Hcost. split_and!; [by left|by apply Qeq_bool_neq|done].
    + intros (ij' & [->|?]%elem_of_cons & Hne & ->); [|right; by exists ij'].
      left. rewrite Hcost in *. destruct (Qeq_bool c 0) eqn:E.
      * by apply Qeq_bool_iff in E.
      * by apply list_elem_of_singleton.
Qed.

Lemma elem_of_objective (a : Args) (prob : LpProblem) (vc : LpVariable * Q) :
  build_model a = Ok prob →
  vc ∈ objective prob ↔
  ∃ i j, i < length (supply a) ∧ j < length (demand a) ∧
         ¬ (cost_at a i j == 0)%Q ∧ vc = (x_var i j, cost_at a i j).
Proof.
  intros Hbuild. destruct (build_objective a prob Hbuild) as (es & -> & Hall).
  rewrite (elem_of_cost_terms a _ _ vc Hall). split.
  - intros ([i j] & [??]%elem_of_routes & ? & ?). by exists i, j.
  - intros (i & j & ? & ? & ? & ?). exists (i, j).
    split; [by apply elem_of_routes|done].
Qed.

(** The objective has no term exactly when every route costs nothing. *)
Lemma objective_nil_iff (a : Args) (prob : LpProblem) :
  build_model a = Ok prob →
  objective prob = [] ↔
  ∀ i j, i < length (supply a) → j < length (demand a) → (cost_at a i j == 0)%Q.
Proof.
  intros Hbuild. split.
  - intros Hnil i j Hi Hj.
    destruct (Qeq_dec (cost_at a i j) 0) as [|Hne]; [done|].
    assert ((x_var i j, cost_at a i j) ∈ objective prob) as Hin
      by (apply (elem_of_objective a prob _ Hbuild); by exists i, j).
    rewrite Hnil in Hin. by apply elem_of_nil in Hin.
  - intros Hzero. destruct (objective prob) as [|vc e] eqn:E; [done|].
    assert (vc ∈ objective prob) as Hin by (rewrite E; left).
    apply (elem_of_objective a prob _ Hbuild) in Hin as (i & j & ? & ? & Hne & _).
    destruct Hne. by apply Hzero.
Qed.

(** ** The objective after the solve *)

Lemma x_var_not_dummy (i j : nat) : name (x_var i j) ≠ name dummyVar.
Proof. unfold x_var. simpl. rewrite !append_cons. discriminate. Qed.

Lemma value_from_assigned (vals : string → option Q) (e : LpAffineExpression) :
  (∀ vc, vc ∈ e → name vc.1 ≠ name dummyVar) →
  ∀ s, value_from (assignVarsVals vals) s e = value_from vals s e.
Proof.
  induction e as [|[v c] e IH]; intros Hnames s; [done|].
  cbn [value_from].
  assert (assignVarsVals vals (name v) = vals (name v)) as ->.
  { unfold assignVarsVals. apply decide_False, (Hnames (v, c)). left. }
  destruct (vals (name v)); [|done].
  apply IH. intros vc ?. apply Hnames. by right.
Qed.

Lemma value_from_None (vals : string → option Q) (e : LpAffineExpression) (s : Q) :
  value_from vals s e = None → ∃ vc, vc ∈ e ∧ vals (name vc.1) = None.
Proof.
  revert s. induction e as [|[v c] e IH]; intros s; [done|].
  cbn [value_from]. destruct (vals (name v)) as [q|] eqn:E.
  - intros (vc & ? & ?)%IH. exists vc. split; [by right|done].
  - intros _. exists (v, c). split; [left|done].
Qed.

(** [prob.objective.value()] of line 49: without a term in the objective it
    is [None], whatever the solver reports; otherwise it is the objective at
    the values the solver reports. *)
Lemma total_cost_no_terms (solver : LpProblem → SolverOutcome) (a : Args)
    (prob : LpProblem) (sol : Solution) :
  build_model a = Ok prob →
  outcome (solve_transportation solver a) = Ok sol →
  objective prob = [] → total_cost sol = None.
Proof.
  intros Hbuild (prob' & Hbuild' & _ & _ & -> & _)%solve_transportation_Ok.
  assert (prob' = prob) as -> by congruence.
  intros ->. vm_compute. reflexivity.
Qed.

Lemma total_cost_with_terms (solver : LpProblem → SolverOutcome) (a : Args)
    (prob : LpProblem) (sol : Solution) :
  build_model a = Ok prob →
  outcome (solve_transportation solver a) = Ok sol →
  objective prob ≠ [] →
  total_cost sol = value (varValue (solver prob)) (objective prob).
Proof.
  intros Hbuild (prob' & Hbuild' & _ & _ & -> & _)%solve_transportation_Ok.
  assert (prob' = prob) as -> by congruence.
  intros Hne. destruct (objective prob) as [|vc e] eqn:E; [done|].
  cbn [restoreObjective]. apply value_from_assigned.
  intros vc' Hvc'. rewrite <-E in Hvc'.
  apply (elem_of_objective a prob _ Hbuild) in Hvc' as (i & j & _ & _ & _ & ->).
  apply x_var_not_dummy.
Qed.

(** C3, at the failing input: one route that costs nothing, supply 5,
    demand 3, and a solver that reports Optimal with 3 units on the route, a
    plan the model admits.  The result has status Optimal and the 3 units, so
    the sum of cost times units is 0; but its total cost is None: the
    objective has no term, PuLP keeps its variable [__dummy] in it, and that
    variable never has a value. *)
Theorem zero_costs_have_no_total_cost :
  ∃ prob sol,
    build_model zero_cost_args = Ok prob ∧
    feasible (varValue (zero_cost_solver prob)) prob ∧
    outcome (solve_transportation zero_cost_solver zero_cost_args) = Ok sol ∧
    status sol = "Optimal" ∧
    variables sol !! (0, 0) = Some (Some 3%Q) ∧
    (shipping_cost zero_cost_args sol == 0)%Q ∧
    total_cost sol = None.
Proof.
  eexists _, _. split_and!; try (vm_compute; reflexivity).
  apply feasibleb_true. vm_compute. reflexivity.
Qed.

(** ** Names of prohibited routes *)

Lemma pretty_N_go_nonempty (k : N) (s : string) : s ≠ "" → pretty_N_go k s ≠ "".
Proof.
  revert s. induction (N.lt_wf_0 k) as [k _ IH]; intros s Hs.
  assert (k = 0 ∨ 0 < k)%N as [->|?] by lia; [by rewrite pretty_N_go_0|].
  rewrite pretty_N_go_step by done. apply IH; [by apply N.div_lt|done].
Qed.

Lemma pretty_N_nonempty (k : N) : pretty k ≠ "".
Proof.
  unfold pretty, pretty_N. case_decide; [done|].
  assert (0 < k)%N by lia. rewrite pretty_N_go_step by done.
  by apply pretty_N_go_nonempty.
Qed.

(** The sanitized numeral of an integer: digits, after an underscore when the
    integer is negative. *)
Lemma sanitize_pretty_Z (z : Z) :
  (∃ d, sanitize (pretty z) = d ∧ pretty z = d ∧ all_digits d = true ∧ d ≠ "") ∨
  (∃ d, sanitize (pretty z) = "_" +:+ d ∧ pretty z = "-" +:+ d ∧ all_digits d = true).
Proof.
  destruct z as [|p|p].
  - left. by exists "0".
  - left. exists (pretty (N.pos p)). split_and!; try done.
    + apply all_digits_sanitize, all_digits_pretty_N.
    + apply all_digits_pretty_N.
    + apply pretty_N_nonempty.
  - right. exists (pretty (N.pos p)). split_and!; try done.
    + change (pretty (Z.neg p)) with ("-" +:+ pretty (N.pos p)).
      rewrite sanitize_app. f_equal.
      apply all_digits_sanitize, all_digits_pretty_N.
    + apply all_digits_pretty_N.
Qed.

Lemma digit_not_underscore (d t : string) :
  all_digits d = true → d ≠ "" → d ≠ "_" +:+ t.
Proof. destruct d as [|c d]; [done|]. intros [Hc _]%andb_true_iff _ [= -> _]. done. Qed.

Lemma sanitized_pair_inj (i j i' j' : Z) :
  sanitize (pretty i) +:+ "_" +:+ sanitize (pretty j)
  = sanitize (pretty i') +:+ "_" +:+ sanitize (pretty j') →
  pretty i = pretty i' ∧ sanitize (pretty j) = sanitize (pretty j').
Proof.
  destruct (sanitize_pretty_Z i) as [(d & -> & -> & Hd & Hne)|(d & -> & -> & Hd)],
    (sanitize_pretty_Z i') as [(d' & -> & -> & Hd' & Hne')|(d' & -> & -> & Hd')].
  - intros [-> ?]%digits_split; done.
  - destruct d as [|c d]; [done|]. apply andb_true_iff in Hd as [Hc _].
    repeat (rewrite append_nil || rewrite append_cons).
    intros [= -> _]. done.
  - destruct d' as [|c d']; [done|]. apply andb_true_iff in Hd' as [Hc _].
    repeat (rewrite append_nil || rewrite append_cons).
    intros [= <- _]. done.
  - repeat (rewrite append_nil || rewrite append_cons).
    intros [= [-> ?]%digits_split]; done.
Qed.

Lemma sanitize_pretty_Z_inj (z z' : Z) :
  sanitize (pretty z) = sanitize (pretty z') → z = z'.
Proof.
  intros H. apply (inj pretty).
  assert (sanitize (pretty z) +:+ "_" +:+ sanitize (pretty 0%Z)
          = sanitize (pretty z') +:+ "_" +:+ sanitize (pretty 0%Z)) as Hpair
    by by rewrite H.
  by apply sanitized_pair_inj in Hpair as [? _].
Qed.

Global Instance prohibited_name_inj : Inj (=) (=) prohibited_name.
Proof.
  intros [i j] [i' j']. unfold prohibited_name. simpl.
  rewrite !sanitize_app. simpl sanitize at 1 3 4 6.
  intros H%(inj (String.append "Prohibited_")).
  apply sanitized_pair_inj in H as [Hi%(inj pretty) Hj%sanitize_pretty_Z_inj].
  by subst.
Qed.

(** ** When the build succeeds

    The build raises only for an index outside a list or a constraint name
    used twice.  Inputs whose matrices cover every route and whose prohibited
    routes are in range and listed once never raise. *)

Lemma for_each_addConstraint {A} (l : list A) (mk : A → LpConstraint)
    (nmf key : A → string) (c0 : ascii) (cs : list ascii) (p : LpProblem) :
  (∀ y, y ∈ l → sanitize (nmf y) = key y ∧ head (key y) = Some c0) →
  NoDup (key <$> l) → c0 ∉ cs → keys_start cs p →
  ∃ p', for_each l (λ y p, addConstraint p (mk y) (nmf y)) p = Ok p' ∧
        keys_start (c0 :: cs) p'.
Proof.
  intros Hkey Hnodup Hc0 Hp.
  assert (∀ nm, is_Some (constraints p !! nm) →
            (∃ c, head nm = Some c ∧ c ∈ cs) ∨
            (head nm = Some c0 ∧ nm ∉ key <$> l)) as Hinv.
  { intros nm ?. left. by apply Hp. }
  clear Hp. revert p Hinv.
  induction l as [|y l IH]; intros p Hinv; simpl.
  - exists p. split; [done|]. intros nm [(c & ? & ?)|[? _]]%Hinv.
    + exists c. split; [done|by right].
    + exists c0. split; [done|left].
  - destruct (Hkey y) as [Hy Hhead]; [left|].
    apply NoDup_cons in Hnodup as [Hnotin Hnodup].
    rewrite addConstraint_fresh; simpl.
    + apply IH; [intros ??; apply Hkey; by right|done|]. simpl.
      intros nm [c Hnm]. rewrite Hy in Hnm.
      apply lookup_insert_Some in Hnm as [[<- _]|[Hne Hnm]]; [by right|].
      destruct (Hinv nm) as [?|[? Hnotin']]; [by eexists|by left|].
      right. split; [done|]. intros ?. apply Hnotin'. rewrite fmap_cons. by right.
    + rewrite Hy. apply eq_None_not_Some. intros [(c & Hc & ?)|[_ Hnotin']]%Hinv.
      * rewrite Hhead in Hc. by simplify_eq.
      * apply Hnotin'. rewrite fmap_cons. left.
Qed.

Lemma NoDup_routes (m n : nat) : NoDup (routes m n).
Proof.
  unfold routes, range. apply NoDup_bind; [| |apply NoDup_seq].
  - intros i i' [j k] _ _ (? & [= -> _] & _)%list_elem_of_fmap
      (? & [= -> _] & _)%list_elem_of_fmap. done.
  - intros i _. apply NoDup_fmap_2; [|apply NoDup_seq]. by intros ?? [= ->].
Qed.

Section Succeeds.
Variable a : Args.
Local Abbreviation m := (length (supply a)).
Local Abbreviation n := (length (demand a)).

Lemma add_objective_Ok (p : LpProblem) :
  covers m n (costs a) →
  ∃ p', add_objective a p = Ok p' ∧ constraints p' = constraints p.
Proof.
  intros Hcosts. unfold add_objective. cbv zeta.
  rewrite (mapM_Ok _ (λ ij, mul (cost_at a ij.1 ij.2) (x_var ij.1 ij.2))).
  - simpl. eauto.
  - intros [i j] [Hi Hj]%elem_of_routes.
    destruct (Hcosts i j Hi Hj) as [c Hc]. simpl.
    pose proof Hc as ->%getitem2_nat. simpl. rewrite getitem2_x by done.
    unfold cost_at. by rewrite Hc.
Qed.

Lemma add_supply_Ok (cs : list ascii) (p : LpProblem) :
  "S"%char ∉ cs → keys_start cs p →
  ∃ p', add_supply a p = Ok p' ∧ keys_start ("S"%char :: cs) p'.
Proof.
  intros Hc Hp. rewrite add_supply_unfold.
  destruct (for_each_addConstraint (range m)
    (λ i, mkConstraint (supply_lhs n i) LpConstraintLE (default 0%Q (supply a !! i)))
    supply_name supply_name "S"%char cs p) as (p' & Hrun & Hp'); try done.
  - intros i _. by rewrite sanitize_supply_name.
  - apply NoDup_fmap_2; [apply _|apply NoDup_seq].
  - exists p'. split; [|done]. rewrite <-Hrun. apply for_each_ext.
    intros i q Hi%elem_of_range. rewrite getitem_nat.
    destruct (lookup_lt_is_Some_2 (supply a) i Hi) as [s ->]. done.
Qed.

Lemma add_demand_Ok (cs : list ascii) (p : LpProblem) :
  "D"%char ∉ cs → keys_start cs p →
  ∃ p', add_demand a p = Ok p' ∧ keys_start ("D"%char :: cs) p'.
Proof.
  intros Hc Hp. rewrite add_demand_unfold.
  destruct (for_each_addConstraint (range n)
    (λ j, mkConstraint (demand_lhs m j) LpConstraintGE (default 0%Q (demand a !! j)))
    demand_name demand_name "D"%char cs p) as (p' & Hrun & Hp'); try done.
  - intros j _. by rewrite sanitize_demand_name.
  - apply NoDup_fmap_2; [apply _|apply NoDup_seq].
  - exists p'. split; [|done]. rewrite <-Hrun. apply for_each_ext.
    intros j q Hj%elem_of_range. rewrite getitem_nat.
    destruct (lookup_lt_is_Some_2 (demand a) j Hj) as [d ->]. done.
Qed.

Lemma add_route_bounds_Ok (M : list (list Q)) (sn : LpConstraintSense)
    (prefix : string) (c0 : ascii) (cs : list ascii) (p : LpProblem) :
  covers m n M → sanitize prefix = prefix → head prefix = Some c0 →
  c0 ∉ cs → keys_start cs p →
  ∃ p', add_route_bounds a M sn prefix p = Ok p' ∧ keys_start (c0 :: cs) p'.
Proof.
  intros HM Hprefix Hhead Hc Hp. rewrite add_route_bounds_unfold.
  destruct (for_each_addConstraint (routes m n)
    (λ ij, mkConstraint (of_var (x_var ij.1 ij.2)) sn
             (default 0%Q (M !! ij.1 ≫= (.!! ij.2))))
    (route_name prefix) (route_name prefix) c0 cs p) as (p' & Hrun & Hp');
    try done.
  - intros ij _. split; [by apply sanitize_route_name|].
    unfold route_name. by destruct prefix.
  - apply NoDup_fmap_2; [apply _|apply NoDup_routes].
  - exists p'. split; [|done]. rewrite <-Hrun. apply for_each_ext.
    intros [i j] q [Hi Hj]%elem_of_routes. simpl.
    destruct (HM i j Hi Hj) as [c Hc']. rewrite Hc'.
    apply getitem2_nat in Hc' as ->. done.
Qed.

Lemma getitem2_x_position (i j : Z) (r c : nat) :
  position m i = Some r → position n j = Some c →
  getitem2 (make_x m n) i j = Ok (x_var r c).
Proof.
  intros Hi Hj. unfold getitem2, make_x, range.
  assert (getitem ((λ i, x_var i <$> seq 0 n) <$> seq 0 m) i
          = Ok (x_var r <$> seq 0 n)) as ->.
  { apply getitem_Ok. exists r. rewrite length_fmap, length_seq.
    split; [done|]. apply position_lt in Hi.
    by rewrite list_lookup_fmap, lookup_seq_lt. }
  simpl. apply getitem_Ok. exists c. rewrite length_fmap, length_seq.
  split; [done|]. apply position_lt in Hj.
  by rewrite list_lookup_fmap, lookup_seq_lt.
Qed.

Lemma add_prohibited_Ok (cs : list ascii) (p : LpProblem) :
  (∀ l, truthy (prohibited_routes a) = Some l →
     NoDup l ∧
     ∀ ij, ij ∈ l → is_Some (position m ij.1) ∧ is_Some (position n ij.2)) →
  "P"%char ∉ cs → keys_start cs p →
  ∃ p', add_prohibited a p = Ok p'.
Proof.
  intros Hl Hc Hp. rewrite add_prohibited_unfold.
  destruct (truthy (prohibited_routes a)) as [l|]; [|eauto].
  destruct (Hl l eq_refl) as [Hnodup Hpos].
  destruct (for_each_addConstraint l
    (λ ij, mkConstraint
             (of_var (x_var (default 0 (position m ij.1))
                            (default 0 (position n ij.2))))
             LpConstraintEQ 0%Q)
    (λ ij, "Prohibited_" +:+ pretty ij.1 +:+ "_" +:+ pretty ij.2)
    prohibited_name "P"%char cs p) as (p' & Hrun & Hp'); try done.
  - by apply NoDup_fmap_2; [apply _|].
  - exists p'. rewrite <-Hrun. apply for_each_ext.
    intros ij q [[r Hr] [c Hc']]%Hpos.
    rewrite (getitem2_x_position _ _ r c) by done. by rewrite Hr, Hc'.
Qed.

(** Well-shaped arguments always yield a model. *)
Lemma build_model_succeeds : well_shaped a → ∃ prob, build_model a = Ok prob.
Proof.
  intros (Hcosts & Hcap & Hmin & Hpro). unfold build_model.
  destruct (add_objective_Ok (LpProblem_new "Transportation_Problem" LpMinimize)
              Hcosts) as (p1 & -> & Hcons1). simpl.
  assert (keys_start [] p1) as Hk1.
  { intros nm [c Hc]. rewrite Hcons1 in Hc. simpl in Hc.
    by rewrite lookup_empty in Hc. }
  destruct (add_supply_Ok [] p1) as (p2 & -> & Hk2); [by apply not_elem_of_nil|done|].
  simpl.
  destruct (add_demand_Ok ["S"%char] p2) as (p3 & -> & Hk3); [|done|].
  { by intros [=]%list_elem_of_singleton. }
  simpl.
  assert (∃ p4, add_capacities a p3 = Ok p4 ∧
                keys_start ["C"; "D"; "S"]%char p4) as (p4 & -> & Hk4).
  { unfold add_capacities. destruct (truthy (capacities a)) as [M|] eqn:E.
    - apply add_route_bounds_Ok; [by apply Hcap|done..| |done].
      by intros [[=]|[=]%list_elem_of_singleton]%elem_of_cons.
    - exists p3. split; [done|]. intros nm (c & ? & ?)%Hk3. exists c.
      split; [done|by right]. }
  simpl.
  assert (∃ p5, add_route_minimums a p4 = Ok p5 ∧
                keys_start ["R"; "C"; "D"; "S"]%char p5) as (p5 & -> & Hk5).
  { unfold add_route_minimums. destruct (truthy (route_minimums a)) as [M|] eqn:E.
    - apply add_route_bounds_Ok; [by apply Hmin|done..| |done].
      by intros [[=]|[[=]|[=]%list_elem_of_singleton]%elem_of_cons]%elem_of_cons.
    - exists p4. split; [done|]. intros nm (c & ? & ?)%Hk4. exists c.
      split; [done|by right]. }
  simpl.
  apply (add_prohibited_Ok ["R"; "C"; "D"; "S"]%char); [done| |done].
  by intros [[=]|[[=]|[[=]|[=]%list_elem_of_singleton]%elem_of_cons]%elem_of_cons]
    %elem_of_cons.
Qed.
End Succeeds.

(** ** Total demand above total supply (claim C4) *)

Lemma Qsum_fmap_plus {A} (f g : A → Q) (l : list A) :
  (Qsum ((λ y, f y + g y)%Q <$> l) == Qsum (f <$> l) + Qsum (g <$> l))%Q.
Proof.
  induction l as [|y l IH]; [done|].
  rewrite !fmap_cons, !Qsum_cons, IH. ring.
Qed.

Lemma Qsum_fmap_zero {A} (l : list A) : (Qsum ((λ _, 0%Q) <$> l) == 0)%Q.
Proof.
  induction l as [|y l IH]; [done|].
  rewrite fmap_cons, Qsum_cons, IH. ring.
Qed.

(** Summing by rows or by columns gives the same total. *)
Lemma Qsum_exchange {A B} (f : A → B → Q) (l : list A) (k : list B) :
  (Qsum ((λ y, Qsum (f y <$> k)) <$> l)
   == Qsum ((λ z, Qsum ((λ y, f y z) <$> l)) <$> k))%Q.
Proof.
  induction l as [|y l IH].
  - by rewrite Qsum_fmap_zero.
  - rewrite fmap_cons, Qsum_cons, IH.
    by rewrite <-(Qsum_fmap_plus (f y) (λ z, Qsum ((λ y, f y z) <$> l))).
Qed.

Lemma Qsum_below (l : list Q) (f : nat → Q) (k : nat) :
  (∀ i s, l !! i = Some s → (f (k + i)%nat <= s)%Q) →
  (Qsum (f <$> seq k (length l)) <= Qsum l)%Q.
Proof.
  revert k. induction l as [|s l IH]; intros k Hf; simpl; [done|].
  apply Qplus_le_compat.
  - specialize (Hf 0 s eq_refl). by rewrite Nat.add_0_r in Hf.
  - apply IH. intros i s' Hi. specialize (Hf (S i) s' Hi).
    by rewrite Nat.add_succ_r in Hf.
Qed.

Lemma Qsum_above (l : list Q) (f : nat → Q) (k : nat) :
  (∀ i s, l !! i = Some s → (s <= f (k + i)%nat)%Q) →
  (Qsum l <= Qsum (f <$> seq k (length l)))%Q.
Proof.
  revert k. induction l as [|s l IH]; intros k Hf; simpl; [done|].
  apply Qplus_le_compat.
  - specialize (Hf 0 s eq_refl). by rewrite Nat.add_0_r in Hf.
  - apply IH. intros i s' Hi. specialize (Hf (S i) s' Hi).
    by rewrite Nat.add_succ_r in Hf.
Qed.

(** In a feasible reading of a built model the total demand does not exceed
    the total supply. *)
Lemma feasible_totals (a : Args) (prob : LpProblem) (vals : string → option Q) :
  build_model a = Ok prob → feasible vals prob →
  (Qsum (demand a) <= Qsum (supply a))%Q.
Proof.
  intros Hbuild Hfeas.
  set (m := length (supply a)). set (n := length (demand a)).
  apply Qle_trans with (Qsum ((λ j, inflow vals m j) <$> seq 0 n)).
  { apply Qsum_above. intros j d Hd. simpl.
    pose proof (build_demand_row a prob Hbuild j d Hd) as Hrow.
    by apply (feasible_valid _ _ _ _ Hfeas), valid_demand_row in Hrow as [_ ?]. }
  apply Qle_trans with (Qsum ((λ i, outflow vals n i) <$> seq 0 m)).
  { apply Qle_lteq. right. unfold inflow, outflow, range.
    symmetry. apply (Qsum_exchange (shipment vals)). }
  apply Qsum_below. intros i s Hs. simpl.
  pose proof (build_supply_row a prob Hbuild i s Hs) as Hrow.
  by apply (feasible_valid _ _ _ _ Hfeas), valid_supply_row in Hrow as [_ ?].
Qed.

(** C4: when total demand strictly exceeds total supply, the builder still
    constructs the model for any well-shaped input (the totals play no part
    in the build), the model has no feasible reading whatever the capacities,
    and with a solver that reports models without feasible reading as
    infeasible (status code -1) the returned status is Infeasible. *)
Theorem demand_above_supply_is_infeasible (solver : LpProblem → SolverOutcome)
    (a : Args) :
  well_shaped a →
  (Qsum (supply a) < Qsum (demand a))%Q →
  (∀ prob, build_model a = Ok prob → (∀ vals, ¬ feasible vals prob) →
     raw_status (solver prob) = (-1)%Z) →
  ∃ prob sol,
    build_model a = Ok prob ∧
    (∀ vals, ¬ feasible vals prob) ∧
    solve_transportation solver a = mkRun [prob] (Ok sol) ∧
    status sol = "Infeasible".
Proof.
  intros Hshape Hlt Hsolver.
  destruct (build_model_succeeds a Hshape) as [prob Hbuild].
  assert (∀ vals, ¬ feasible vals prob) as Hinf.
  { intros vals Hfeas%(feasible_totals a); [|done]. by apply Qle_not_lt in Hfeas. }
  destruct (solve_transportation_returns solver a prob "Infeasible" Hbuild)
    as (sol & ? & ?); [by rewrite (Hsolver prob Hbuild Hinf)|].
  by exists prob, sol.
Qed.

Lemma single_route_well_shaped : well_shaped single_route_args.
Proof.
  split_and!; try done.
  intros i j Hi Hj. simpl in Hi, Hj.
  destruct i as [|i], j as [|j]; try lia. by eexists.
Qed.

Lemma demand_above_supply_is_infeasible_witness :
  ∃ prob sol,
    build_model single_route_args = Ok prob ∧
    (∀ vals, ¬ feasible vals prob) ∧
    solve_transportation infeasible_solver single_route_args = mkRun [prob] (Ok sol) ∧
    status sol = "Infeasible".
Proof.
  apply demand_above_supply_is_infeasible.
  - exact single_route_well_shaped.
  - vm_compute. reflexivity.
  - intros prob _ _. reflexivity.
Defined.

(** ** Inputs the specification wants rejected (claims C5 and C8)

    The function has no validation step: nothing is checked before the model
    is assembled, and the only exceptions come from list indexing and from
    PuLP's check of constraint names. *)

Lemma solver_called_once (solver : LpProblem → SolverOutcome) (a : Args)
    (prob : LpProblem) :
  build_model a = Ok prob →
  solver_calls (solve_transportation solver a) = [prob] ∧
  ¬ rejects_before_solving solver a.
Proof.
  intros Hbuild. unfold rejects_before_solving, solve_transportation.
  rewrite Hbuild. split; [done|]. by intros [e [=]].
Qed.

Lemma conflict_args_well_shaped : well_shaped conflict_args.
Proof.
  assert (∀ q, covers 1 1 [[q]]) as Hcov.
  { intros q i j Hi Hj. destruct i as [|i], j as [|j]; try lia. by eexists. }
  split_and!; try done.
  - apply Hcov.
  - intros M [= <-]. apply Hcov.
  - intros M [= <-]. apply Hcov.
Qed.

(** C5, as stated, fails: capacity 2 and minimum 5 on the only route are not
    rejected; the model is built and handed to the solver. *)
Lemma conflicting_bounds_not_rejected :
  capacities conflict_args = Some [[2]]%Q ∧
  route_minimums conflict_args = Some [[5]]%Q ∧
  (2 < 5)%Q ∧
  ¬ rejects_before_solving infeasible_solver conflict_args ∧
  ∃ prob sol,
    solve_transportation infeasible_solver conflict_args = mkRun [prob] (Ok sol).
Proof.
  split_and!; [done..| |].
  - intros [e He]. vm_compute in He. discriminate.
  - eexists _, _. vm_compute. reflexivity.
Qed.

(** C5, amended: when capacity[i][j] < minimum[i][j] on some route of a
    well-shaped input, the builder raises nothing: the model holds both
    x[i][j] <= capacity[i][j] and x[i][j] >= minimum[i][j], it has no feasible
    reading, and it is handed to the solver, once. *)
Theorem conflicting_bounds_are_left_to_solver (solver : LpProblem → SolverOutcome)
    (a : Args) (C M : list (list Q)) (i j : nat) (c v : Q) :
  well_shaped a →
  capacities a = Some C → route_minimums a = Some M →
  i < length (supply a) → j < length (demand a) →
  C !! i ≫= (.!! j) = Some c → M !! i ≫= (.!! j) = Some v → (c < v)%Q →
  ∃ prob,
    build_model a = Ok prob ∧
    solver_calls (solve_transportation solver a) = [prob] ∧
    ¬ rejects_before_solving solver a ∧
    constraints prob !! route_name "Capacity_" (i, j)
    = Some (mkConstraint (of_var (x_var i j)) LpConstraintLE c) ∧
    constraints prob !! route_name "RouteMin_" (i, j)
    = Some (mkConstraint (of_var (x_var i j)) LpConstraintGE v) ∧
    ∀ vals, ¬ feasible vals prob.
Proof.
  intros Hshape HC HM Hi Hj Hc Hv Hlt.
  destruct (build_model_succeeds a Hshape) as [prob Hbuild]. exists prob.
  destruct (solver_called_once solver a prob Hbuild) as [Hcalls Hrej].
  destruct (build_capacity a prob Hbuild C i j) as (c' & Hc' & Hcap); try done.
  { intros ->. by rewrite lookup_nil in Hc. }
  destruct (build_minimum a prob Hbuild M i j) as (v' & Hv' & Hmin); try done.
  { intros ->. by rewrite lookup_nil in Hv. }
  assert (c' = c) as -> by congruence. assert (v' = v) as -> by congruence.
  split_and!; try done.
  intros vals Hfeas.
  pose proof (feasible_valid _ _ _ _ Hfeas Hcap) as (q & Hq & Hle)%valid_var.
  pose proof (feasible_valid _ _ _ _ Hfeas Hmin) as (q' & Hq' & Hge)%valid_var.
  assert (q' = q) as -> by congruence. simpl in Hle, Hge.
  apply (Qlt_not_le _ _ Hlt). by apply Qle_trans with q.
Qed.

Lemma conflicting_bounds_are_left_to_solver_witness :
  ∃ prob,
    build_model conflict_args = Ok prob ∧
    solver_calls (solve_transportation infeasible_solver conflict_args) = [prob] ∧
    ¬ rejects_before_solving infeasible_solver conflict_args ∧
    constraints prob !! route_name "Capacity_" (0, 0)
    = Some (mkConstraint (of_var (x_var 0 0)) LpConstraintLE 2%Q) ∧
    constraints prob !! route_name "RouteMin_" (0, 0)
    = Some (mkConstraint (of_var (x_var 0 0)) LpConstraintGE 5%Q) ∧
    ∀ vals, ¬ feasible vals prob.
Proof.
  apply (conflicting_bounds_are_left_to_solver infeasible_solver conflict_args
           [[2]]%Q [[5]]%Q 0 0 2%Q 5%Q).
  - exact conflict_args_well_shaped.
  - reflexivity.
  - reflexivity.
  - simpl. lia.
  - simpl. lia.
  - reflexivity.
  - reflexivity.
  - vm_compute. reflexivity.
Defined.

Lemma negative_args_well_shaped : well_shaped negative_args.
Proof.
  split_and!; try done.
  intros i j Hi Hj. simpl in Hi, Hj.
  destruct i as [|i], j as [|j]; try lia. by eexists.
Qed.

(** C8, as stated, fails: a supply of -1 is not rejected; the model is built
    and handed to the solver. *)
Lemma negative_supply_not_rejected :
  supply negative_args = [-1]%Q ∧
  (-1 < 0)%Q ∧
  ¬ rejects_before_solving infeasible_solver negative_args ∧
  ∃ prob sol,
    solve_transportation infeasible_solver negative_args = mkRun [prob] (Ok sol) ∧
    constraints prob !! supply_name 0
    = Some (mkConstraint (supply_lhs 1 0) LpConstraintLE (-1)%Q).
Proof.
  split_and!; [done..| |].
  - intros [e He]. vm_compute in He. discriminate.
  - eexists _, _. split; vm_compute; reflexivity.
Qed.

(** C8, amended: negative supply, demand, capacity or minimum entries are not
    rejected.  For every well-shaped input with such an entry the builder
    raises nothing, every entry is the right-hand side of its row unchanged,
    and the model is handed to the solver, once. *)
Theorem negative_entries_are_not_rejected (solver : LpProblem → SolverOutcome)
    (a : Args) :
  well_shaped a → has_negative_entry a →
  ∃ prob,
    build_model a = Ok prob ∧
    solver_calls (solve_transportation solver a) = [prob] ∧
    ¬ rejects_before_solving solver a ∧
    entries_unchanged a prob.
Proof.
  intros Hshape _.
  destruct (build_model_succeeds a Hshape) as [prob Hbuild]. exists prob.
  destruct (solver_called_once solver a prob Hbuild) as [Hcalls Hrej].
  split_and!; [done..|]. unfold entries_unchanged. split_and!.
  - intros i s Hs. eexists. split; [by apply build_supply_row|done].
  - intros j d Hd. eexists. split; [by apply build_demand_row|done].
  - intros M i j HM Hne Hi Hj.
    destruct (build_capacity a prob Hbuild M i j HM Hne Hi Hj) as (q & Hq & Hrow).
    by eexists q, _.
  - intros M i j HM Hne Hi Hj.
    destruct (build_minimum a prob Hbuild M i j HM Hne Hi Hj) as (q & Hq & Hrow).
    by eexists q, _.
Qed.

Lemma negative_entries_are_not_rejected_witness :
  ∃ prob,
    build_model negative_args = Ok prob ∧
    solver_calls (solve_transportation infeasible_solver negative_args) = [prob] ∧
    ¬ rejects_before_solving infeasible_solver negative_args ∧
    entries_unchanged negative_args prob.
Proof.
  apply negative_entries_are_not_rejected.
  - exact negative_args_well_shaped.
  - left. exists 0, (-1)%Q. split; [reflexivity|]. vm_compute. reflexivity.
Defined.

(** ** What the result holds (claims C6, C7 and C9)

    Lines 47-51 copy the solver's status, through the table, and its values
    into the result; they branch on nothing. *)

(** C6, as stated, fails: a result with status Infeasible holds a total cost
    and a full matrix. *)
Lemma infeasible_result_holds_values :
  ∃ sol,
    outcome (solve_transportation stale_solver single_route_args) = Ok sol ∧
    status sol = "Infeasible" ∧
    total_cost sol = Some 21%Q ∧
    variables sol !! (0, 0) = Some (Some 7%Q).
Proof. eexists. split_and!; vm_compute; reflexivity. Qed.

(** C6, amended: a result whose status is not Optimal holds, like any other,
    a total cost and a full matrix.  When some route has a cost other than
    0, the total cost is the objective evaluated at the values the solver
    left (null exactly when a variable of the objective has none); for each
    of the m×n routes the matrix holds the value the solver left in its
    variable (null when there is none); nothing is blanked. *)
Theorem result_holds_solver_values (solver : LpProblem → SolverOutcome)
    (a : Args) (sol : Solution) :
  outcome (solve_transportation solver a) = Ok sol →
  status sol ≠ "Optimal" →
  ∃ prob,
    solver_calls (solve_transportation solver a) = [prob] ∧
    ((∃ i j, i < length (supply a) ∧ j < length (demand a) ∧
             ¬ (cost_at a i j == 0)%Q) →
     total_cost sol = value (varValue (solver prob)) (objective prob) ∧
     (is_Some (total_cost sol) ↔
        ∀ vc, vc ∈ objective prob → is_Some (varValue (solver prob) (name vc.1)))) ∧
    ∀ i j, i < length (supply a) → j < length (demand a) →
      variables sol !! (i, j) = Some (varValue (solver prob) (name (x_var i j))).
Proof.
  intros Hsol _.
  pose proof Hsol as (prob & Hbuild & Hcalls & _)%solve_transportation_Ok.
  exists prob. split_and!; [done| |].
  - intros (i & j & Hi & Hj & Hne).
    assert (objective prob ≠ []) as Hterms.
    { intros Hnil. apply Hne. by apply (objective_nil_iff a prob Hbuild). }
    rewrite (total_cost_with_terms solver a prob sol Hbuild Hsol Hterms).
    split; [done|]. split.
    + intros [q Hq]. by apply value_Some in Hq as [_ ?].
    + apply value_from_is_Some.
  - intros i j Hi Hj. rewrite (solution_variables solver a prob) by done.
    by rewrite decide_True.
Qed.

Lemma result_holds_solver_values_witness :
  ∃ sol prob,
    outcome (solve_transportation stale_solver single_route_args) = Ok sol ∧
    status sol ≠ "Optimal" ∧
    solver_calls (solve_transportation stale_solver single_route_args) = [prob] ∧
    (total_cost sol = value (varValue (stale_solver prob)) (objective prob) ∧
     (is_Some (total_cost sol) ↔
        ∀ vc, vc ∈ objective prob →
          is_Some (varValue (stale_solver prob) (name vc.1)))) ∧
    ∀ i j, i < 1 → j < 1 →
      variables sol !! (i, j) = Some (varValue (stale_solver prob) (name (x_var i j))).
Proof.
  assert (∃ sol, outcome (solve_transportation stale_solver single_route_args)
                 = Ok sol ∧ status sol ≠ "Optimal") as (sol & Hsol & Hst).
  { eexists. split; [vm_compute; reflexivity|]. vm_compute. discriminate. }
  destruct (result_holds_solver_values stale_solver single_route_args sol Hsol Hst)
    as (prob & Hcalls & Htc & Hvars).
  exists sol, prob. split; [exact Hsol|]. split; [exact Hst|].
  split; [exact Hcalls|]. split; [|exact Hvars].
  apply Htc. exists 0, 0. split_and!; [simpl; lia..|]. vm_compute. discriminate.
Defined.

(** C7, as stated, fails: the status Not Solved is returned as it is. *)
Lemma not_solved_is_passed_through :
  ∃ sol,
    outcome (solve_transportation unsolved_solver single_route_args) = Ok sol ∧
    status sol = "Not Solved" ∧
    status sol ∉ ["Optimal"; "Infeasible"; "Unbounded"; "Undefined";
                  "Undefined/Error"; "Error"].
Proof.
  eexists. split_and!; [vm_compute; reflexivity..|].
  vm_compute. intros H. repeat (apply elem_of_cons in H as [[=]|H]).
  by apply elem_of_nil in H.
Qed.

(** C7, amended: the status of a returned result is the entry of PuLP's status
    table for the solver's status code, unchanged: one of Not Solved, Optimal,
    Infeasible, Unbounded and Undefined.  A status code outside the table is
    not normalised: the look-up raises KeyError and nothing is returned. *)
Theorem status_is_table_entry (solver : LpProblem → SolverOutcome)
    (a : Args) (prob : LpProblem) :
  build_model a = Ok prob →
  match LpStatus !! raw_status (solver prob) with
  | Some st =>
      st ∈ ["Not Solved"; "Optimal"; "Infeasible"; "Unbounded"; "Undefined"] ∧
      ∃ sol, outcome (solve_transportation solver a) = Ok sol ∧ status sol = st
  | None => outcome (solve_transportation solver a) = Raise KeyError
  end.
Proof.
  intros Hbuild. destruct (LpStatus !! raw_status (solver prob)) as [st|] eqn:E.
  - split.
    + apply LpStatus_lookup in E.
      destruct E as [[_ ->]|[[_ ->]|[[_ ->]|[[_ ->]|[_ ->]]]]];
        rewrite !elem_of_cons; tauto.
    + destruct (solve_transportation_returns solver a prob st Hbuild E)
        as (sol & -> & ?). by exists sol.
  - unfold solve_transportation, make_solution. rewrite Hbuild. simpl.
    by rewrite E.
Qed.

Lemma status_is_table_entry_witness :
  build_model single_route_args = Ok single_route_model ∧
  "Not Solved" ∈ ["Not Solved"; "Optimal"; "Infeasible"; "Unbounded"; "Undefined"] ∧
  ∃ sol, outcome (solve_transportation unsolved_solver single_route_args) = Ok sol ∧
         status sol = "Not Solved".
Proof.
  assert (build_model single_route_args = Ok single_route_model) as Hbuild
    by (vm_compute; reflexivity).
  split; [exact Hbuild|].
  exact (status_is_table_entry unsolved_solver single_route_args _ Hbuild).
Defined.

(** C9, as stated, fails: with status Optimal, a read-back value of -1e-8 is
    reported as it is, not as 0. *)
Lemma noise_is_not_clamped :
  ∃ sol,
    outcome (solve_transportation noise_solver noise_args) = Ok sol ∧
    status sol = "Optimal" ∧
    variables sol !! (0, 0) = Some (Some (-1 # 100000000)%Q) ∧
    (- (1 # 10000000) <= -1 # 100000000)%Q ∧ (-1 # 100000000 < 0)%Q ∧
    ¬ (-1 # 100000000 == 0)%Q.
Proof. eexists. split_and!; try (vm_compute; reflexivity); by vm_compute. Qed.

(** C9, amended: for every result with status Optimal, the value reported for
    a route is the value read back from its variable, unchanged, whatever it
    is; so a value in [-1e-7, 0) is reported as that negative number. *)
Theorem read_back_is_reported_unchanged (solver : LpProblem → SolverOutcome)
    (a : Args) (prob : LpProblem) (sol : Solution) (i j : nat) :
  build_model a = Ok prob →
  outcome (solve_transportation solver a) = Ok sol →
  status sol = "Optimal" →
  i < length (supply a) → j < length (demand a) →
  variables sol !! (i, j) = Some (varValue (solver prob) (name (x_var i j))) ∧
  ∀ v, varValue (solver prob) (name (x_var i j)) = Some v →
       (- (1 # 10000000) <= v)%Q → (v < 0)%Q →
       variables sol !! (i, j) = Some (Some v) ∧
       reported sol i j = v ∧ (reported sol i j < 0)%Q.
Proof.
  intros Hbuild Hsol _ Hi Hj.
  assert (variables sol !! (i, j)
          = Some (varValue (solver prob) (name (x_var i j)))) as Hvar.
  { rewrite (solution_variables solver a prob) by done.
    by rewrite decide_True. }
  split; [done|]. intros v Hv _ Hneg.
  rewrite Hv in Hvar. unfold reported. by rewrite Hvar.
Qed.

Lemma read_back_is_reported_unchanged_witness :
  ∃ prob sol,
    build_model noise_args = Ok prob ∧
    outcome (solve_transportation noise_solver noise_args) = Ok sol ∧
    status sol = "Optimal" ∧
    variables sol !! (0, 0) = Some (varValue (noise_solver prob) (name (x_var 0 0))) ∧
    variables sol !! (0, 0) = Some (Some (-1 # 100000000)%Q) ∧
    reported sol 0 0 = (-1 # 100000000)%Q ∧
    (reported sol 0 0 < 0)%Q.
Proof.
  eexists _, _.
  assert (∀ (P Q R S : Prop), (P → Q → R → S) → P → Q → R → P ∧ Q ∧ R ∧ S) as Hwrap
    by tauto.
  apply Hwrap; [|vm_compute; reflexivity..].
  intros Hbuild Hsol Hst.
  destruct (read_back_is_reported_unchanged noise_solver noise_args _ _ 0 0
              Hbuild Hsol Hst) as [Hvar Hnoise].
  - simpl. lia.
  - simpl. lia.
  - split; [exact Hvar|].
    apply (Hnoise (-1 # 100000000)%Q).
    + reflexivity.
    + vm_compute. discriminate.
    + vm_compute. reflexivity.
Defined.

(** * Further properties of the function *)

(** ** Which exception, and when *)

Lemma getitem_Raise {A} (l : list A) (i : Z) (e : PyException) :
  getitem l i = Raise e → e = IndexError.
Proof. unfold getitem. destruct (_ ≫= _); [done|]. by intros [= <-]. Qed.

Lemma getitem2_Raise {A} (M : list (list A)) (i j : Z) (e : PyException) :
  getitem2 M i j = Raise e → e = IndexError.
Proof.
  unfold getitem2. destruct (getitem M i) as [row|e'] eqn:E; simpl.
  - apply getitem_Raise.
  - intros [= <-]. by apply getitem_Raise in E.
Qed.

Lemma mapM_Raise {A B} (f : A → Exc B) (l : list A) (e : PyException) :
  mapM f l = Raise e → ∃ y, y ∈ l ∧ f y = Raise e.
Proof.
  induction l as [|y l IH]; simpl; [done|].
  destruct (f y) as [b|e'] eqn:Ef; simpl.
  - destruct (mapM f l) as [bs|e'']; simpl; [done|]. intros [= <-].
    destruct IH as (z & ? & ?); [done|]. exists z. split; [by right|done].
  - intros [= <-]. exists y. split; [left|done].
Qed.

(** A loop that looks an entry up and adds a constraint under a name of its
    own class: it ends well, or with [IndexError] for a missing entry, or with
    [PulpError] for a name used twice. *)
Lemma for_each_guarded {A B} (l : list A) (g : A → Exc B)
    (mk : A → B → LpConstraint) (nmf key : A → string) (c0 : ascii)
    (cs : list ascii) (p : LpProblem) :
  (∀ y, y ∈ l → sanitize (nmf y) = key y ∧ head (key y) = Some c0) →
  (∀ y e, y ∈ l → g y = Raise e → e = IndexError) →
  c0 ∉ cs → keys_start cs p →
  match for_each l (λ y p, q ← g y; addConstraint p (mk y q) (nmf y)) p with
  | Ok p' =>
      keys_start (c0 :: cs) p' ∧ NoDup (key <$> l) ∧ ∀ y, y ∈ l → ∃ q, g y = Ok q
  | Raise e =>
      (e = IndexError ∧ ∃ y, y ∈ l ∧ g y = Raise IndexError) ∨
      (∃ msg, e = PulpError msg ∧ ¬ NoDup (key <$> l))
  end.
Proof.
  intros Hkey Hg Hc0 Hp.
  cut (∀ seen p,
    (∀ nm, is_Some (constraints p !! nm) →
       (∃ c, head nm = Some c ∧ c ∈ cs) ∨ nm ∈ seen) →
    (∀ nm, nm ∈ seen → is_Some (constraints p !! nm) ∧ head nm = Some c0) →
    NoDup seen →
    match for_each l (λ y p, q ← g y; addConstraint p (mk y q) (nmf y)) p with
    | Ok p' =>
        keys_start (c0 :: cs) p' ∧ NoDup (seen ++ (key <$> l)) ∧
        ∀ y, y ∈ l → ∃ q, g y = Ok q
    | Raise e =>
        (e = IndexError ∧ ∃ y, y ∈ l ∧ g y = Raise IndexError) ∨
        (∃ msg, e = PulpError msg ∧ ¬ NoDup (seen ++ (key <$> l)))
    end).
  { intros H. apply (H [] p); [| |constructor].
    - intros nm ?. left. by apply Hp.
    - by intros ? ?%elem_of_nil. }
  clear p Hp. induction l as [|y l IH]; intros seen p I1 I2 I3; simpl.
  - split_and!.
    + intros nm [(c & ? & ?)|Hin]%I1.
      * exists c. split; [done|by right].
      * exists c0. split; [by apply I2|left].
    + by rewrite app_nil_r.
    + by intros ? ?%elem_of_nil.
  - destruct (Hkey y) as [Hy Hhead]; [left|].
    destruct (g y) as [q|e] eqn:Eg; simpl.
    2:{ left. assert (e = IndexError) as -> by (eapply Hg; [left|done]).
        split; [done|]. exists y. split; [left|done]. }
    destruct (constraints p !! key y) as [c|] eqn:Elook.
    + unfold addConstraint. cbv zeta. rewrite Hy, Elook. simpl. right.
      eexists. split; [done|]. intros Hnd.
      destruct (I1 (key y)) as [(c' & Hc' & ?)|Hin]; [by eexists| |].
      * rewrite Hhead in Hc'. by simplify_eq.
      * apply NoDup_app in Hnd as (_ & Hnd & _). apply (Hnd _ Hin). left.
    + rewrite addConstraint_fresh by by rewrite Hy. simpl. rewrite Hy.
      rewrite (cons_middle (key y) seen), (assoc_L (++)).
      match goal with |- context [for_each l ?body ?p1] =>
        pose proof (IH (λ z Hz, Hkey z (list_elem_of_further _ _ _ Hz))
                       (λ z e Hz, Hg z e (list_elem_of_further _ _ _ Hz))
                       (seen ++ [key y]) p1) as H
      end.
      simpl in H. lapply H; clear H; [intros H; lapply H; clear H;
        [intros H; lapply H; clear H|]|].
      * match goal with |- context [for_each l ?body ?p1] =>
          destruct (for_each l body p1) as [p'|e]
        end.
        -- intros (? & ? & Hall). split_and!; [done..|].
           intros y' [->|?]%elem_of_cons; eauto.
        -- intros [[-> (y' & ? & ?)]|(msg & -> & ?)].
           ++ left. split; [done|]. exists y'. split; [by right|done].
           ++ right. eauto.
      * apply NoDup_app. split_and!; [done| |apply NoDup_singleton].
        intros nm Hnm ->%list_elem_of_singleton.
        destruct (I2 _ Hnm) as [[? ?] _]. congruence.
      * intros nm [Hnm| ->%list_elem_of_singleton]%elem_of_app.
        -- destruct (I2 nm Hnm) as [? ?]. split; [|done].
           apply lookup_insert_is_Some. destruct (decide (key y = nm)); auto.
        -- split; [|done]. rewrite lookup_insert_eq. by eexists.
      * intros nm [<-|[_ Hnm]]%lookup_insert_is_Some.
        -- right. apply elem_of_app. right. left.
        -- destruct (I1 nm Hnm) as [?|?]; [by left|].
           right. apply elem_of_app. by left.
Qed.

Lemma mapM_Ok_elem {A B} (f : A → Exc B) (l : list A) (bs : list B) (y : A) :
  mapM f l = Ok bs → y ∈ l → ∃ b, f y = Ok b.
Proof.
  revert bs. induction l as [|z l IH]; intros bs; simpl.
  - by intros _ ?%elem_of_nil.
  - intros (b & ? & (bs' & ? & _)%bind_Ok)%bind_Ok [->|?]%elem_of_cons; eauto.
Qed.

Lemma getitem2_x_Raise (m n : nat) (i j : Z) (e : PyException) :
  getitem2 (make_x m n) i j = Raise e →
  e = IndexError ∧ (position m i = None ∨ position n j = None).
Proof.
  intros H. split; [by eapply getitem2_Raise|].
  destruct (position m i) as [r|] eqn:Er; [|by left].
  destruct (position n j) as [c|] eqn:Ec; [|by right].
  set (a := mkArgs [] (replicate m 0%Q) (replicate n 0%Q) None None None).
  pose proof (getitem2_x_position a i j r c) as Hok. simpl in Hok.
  rewrite !length_replicate in Hok. rewrite Hok in H by done. done.
Qed.

Section Outcomes.
Variable a : Args.
Local Abbreviation m := (length (supply a)).
Local Abbreviation n := (length (demand a)).

Lemma add_objective_outcome (p : LpProblem) :
  match add_objective a p with
  | Ok p' => constraints p' = constraints p ∧ covers m n (costs a)
  | Raise e => e = IndexError ∧ ¬ covers m n (costs a)
  end.
Proof.
  unfold add_objective. cbv zeta.
  destruct (mapM _ (routes m n)) as [es|e] eqn:E; simpl.
  - split; [done|]. intros i j Hi Hj.
    destruct (mapM_Ok_elem _ _ _ (i, j) E) as (b & (c & Hc & _)%bind_Ok).
    { by apply elem_of_routes. }
    apply getitem2_nat in Hc. by eexists.
  - apply mapM_Raise in E as ([i j] & [Hi Hj]%elem_of_routes & E).
    rewrite getitem2_x in E by done.
    destruct (getitem2 (costs a) (Z.of_nat i) (Z.of_nat j)) as [c|e'] eqn:Ec;
      simpl in E; [done|]. injection E as <-.
    split; [by eapply getitem2_Raise|]. intros Hcov.
    destruct (Hcov i j Hi Hj) as [c Hc%getitem2_nat]. congruence.
Qed.

Lemma add_route_bounds_outcome (M : list (list Q)) (sn : LpConstraintSense)
    (prefix : string) (c0 : ascii) (cs : list ascii) (p : LpProblem) :
  sanitize prefix = prefix → head prefix = Some c0 → c0 ∉ cs → keys_start cs p →
  match add_route_bounds a M sn prefix p with
  | Ok p' => keys_start (c0 :: cs) p' ∧ covers m n M
  | Raise e => e = IndexError ∧ ¬ covers m n M
  end.
Proof.
  intros Hprefix Hhead Hc Hp. rewrite add_route_bounds_unfold.
  pose proof (for_each_guarded (routes m n)
    (λ ij, getitem2 M (Z.of_nat ij.1) (Z.of_nat ij.2))
    (λ ij q, mkConstraint (of_var (x_var ij.1 ij.2)) sn q)
    (route_name prefix) (route_name prefix) c0 cs p) as H.
  cbv beta in H. revert H.
  destruct (for_each (routes m n) _ p) as [p'|e]; intros H.
  - destruct H as (? & _ & Hall); try done.
    + intros ij _. split; [by apply sanitize_route_name|].
      unfold route_name. by destruct prefix.
    + intros ij e _. apply getitem2_Raise.
    + split; [done|]. intros i j Hi Hj.
      destruct (Hall (i, j)) as [q Hq%getitem2_nat]; [by apply elem_of_routes|].
      by eexists.
  - destruct H as [[-> ([i j] & [Hi Hj]%elem_of_routes & Hraise)]|(msg & _ & Hnd)];
      try done.
    + intros ij _. split; [by apply sanitize_route_name|].
      unfold route_name. by destruct prefix.
    + intros ij e' _. apply getitem2_Raise.
    + split; [done|]. intros Hcov.
      destruct (Hcov i j Hi Hj) as [q Hq%getitem2_nat]. simpl in Hraise. congruence.
    + destruct Hnd. apply NoDup_fmap_2; [apply _|apply NoDup_routes].
Qed.

Lemma add_prohibited_outcome (cs : list ascii) (p : LpProblem) :
  "P"%char ∉ cs → keys_start cs p →
  match add_prohibited a p with
  | Ok p' =>
      ∀ l, truthy (prohibited_routes a) = Some l →
        NoDup l ∧
        ∀ ij, ij ∈ l → is_Some (position m ij.1) ∧ is_Some (position n ij.2)
  | Raise e =>
      ∃ l, truthy (prohibited_routes a) = Some l ∧
        ((e = IndexError ∧
          ∃ ij, ij ∈ l ∧ (position m ij.1 = None ∨ position n ij.2 = None)) ∨
         (∃ msg, e = PulpError msg ∧ ¬ NoDup l))
  end.
Proof.
  intros Hc Hp. rewrite add_prohibited_unfold.
  destruct (truthy (prohibited_routes a)) as [l|]; [|done].
  pose proof (for_each_guarded l
    (λ ij : Z * Z, getitem2 (make_x m n) ij.1 ij.2)
    (λ _ v, mkConstraint (of_var v) LpConstraintEQ 0%Q)
    (λ ij, "Prohibited_" +:+ pretty ij.1 +:+ "_" +:+ pretty ij.2)
    prohibited_name "P"%char cs p) as H.
  cbv beta in H. revert H.
  destruct (for_each l _ p) as [p'|e]; intros H.
  - destruct H as (_ & Hnd & Hall); try done.
    + intros ij e _. apply getitem2_Raise.
    + intros ? [= <-]. split; [by apply NoDup_fmap_1 in Hnd|].
      intros ij [v (r & c & -> & -> & _)%getitem2_x_Ok]%Hall. by split.
  - exists l. split; [done|].
    destruct H as [[-> (ij & ? & [_ ?]%getitem2_x_Raise)]|(msg & -> & Hnd)];
      try done.
    + intros ij e' _. apply getitem2_Raise.
    + left. split; [done|]. by exists ij.
    + right. exists msg. split; [done|]. intros ?. apply Hnd.
      by apply NoDup_fmap_2; [apply _|].
Qed.

Lemma well_shaped_iff :
  well_shaped a ↔ indices_in_range a ∧ ¬ repeats_prohibited a.
Proof.
  unfold well_shaped, indices_in_range, repeats_prohibited. cbv zeta. split.
  - intros (? & ? & ? & Hpro). split.
    + split_and!; [done..|]. intros l Hl. by apply Hpro.
    + intros (l & Hl & Hnd). by destruct (Hpro l Hl).
  - intros [(? & ? & ? & Hpro) Hrep]. split_and!; [done..|].
    intros l Hl. split; [|by apply Hpro].
    destruct (decide (NoDup l)); [done|]. destruct Hrep. by exists l.
Qed.

(** How the build ends, by the shape of the arguments. *)
Lemma build_model_outcome :
  match build_model a with
  | Ok prob => well_shaped a
  | Raise e =>
      (e = IndexError ∧ ¬ indices_in_range a) ∨
      (∃ msg, e = PulpError msg ∧ repeats_prohibited a)
  end.
Proof.
  unfold build_model.
  pose proof (add_objective_outcome
                (LpProblem_new "Transportation_Problem" LpMinimize)) as H1.
  destruct (add_objective a _) as [p1|e]; simpl;
    [|left; destruct H1 as [-> Hn]; split; [done|]; by intros (? & _)].
  destruct H1 as [Hcons1 Hcosts].
  assert (keys_start [] p1) as Hk1.
  { intros nm [c Hc]. rewrite Hcons1 in Hc. simpl in Hc.
    by rewrite lookup_empty in Hc. }
  destruct (add_supply_Ok a [] p1) as (p2 & -> & Hk2);
    [by apply not_elem_of_nil|done|]. simpl.
  destruct (add_demand_Ok a ["S"%char] p2) as (p3 & -> & Hk3); [|done|].
  { by intros [=]%list_elem_of_singleton. }
  simpl. unfold add_capacities.
  assert (match match truthy (capacities a) with
                | Some M => add_route_bounds a M LpConstraintLE "Capacity_" p3
                | None => Ok p3
                end with
          | Ok p4 => keys_start ["C"; "D"; "S"]%char p4 ∧
                     ∀ M, truthy (capacities a) = Some M → covers m n M
          | Raise e => e = IndexError ∧ ¬ indices_in_range a
          end) as H4.
  { destruct (truthy (capacities a)) as [M|] eqn:E.
    - pose proof (add_route_bounds_outcome M LpConstraintLE "Capacity_"
        "C"%char ["D"; "S"]%char p3 eq_refl eq_refl) as H.
      destruct (add_route_bounds a M _ _ p3).
      + destruct H as [? ?]; [|done|].
        { by intros [[=]|[=]%list_elem_of_singleton]%elem_of_cons. }
        split; [done|]. by intros ? [= <-].
      + destruct H as [-> Hn]; [|done|].
        { by intros [[=]|[=]%list_elem_of_singleton]%elem_of_cons. }
        split; [done|]. intros (_ & Hcap & _). apply Hn. by apply Hcap.
    - split; [|done]. intros nm (c & ? & ?)%Hk3. exists c.
      split; [done|by right]. }
  destruct (match truthy (capacities a) with Some _ => _ | None => _ end)
    as [p4|e]; simpl; [|left; tauto].
  destruct H4 as [Hk4 Hcap]. unfold add_route_minimums.
  assert (match match truthy (route_minimums a) with
                | Some M => add_route_bounds a M LpConstraintGE "RouteMin_" p4
                | None => Ok p4
                end with
          | Ok p5 => keys_start ["R"; "C"; "D"; "S"]%char p5 ∧
                     ∀ M, truthy (route_minimums a) = Some M → covers m n M
          | Raise e => e = IndexError ∧ ¬ indices_in_range a
          end) as H5.
  { destruct (truthy (route_minimums a)) as [M|] eqn:E.
    - pose proof (add_route_bounds_outcome M LpConstraintGE "RouteMin_"
        "R"%char ["C"; "D"; "S"]%char p4 eq_refl eq_refl) as H.
      destruct (add_route_bounds a M _ _ p4).
      + destruct H as [? ?]; [|done|].
        { by intros [[=]|[[=]|[=]%list_elem_of_singleton]%elem_of_cons]%elem_of_cons. }
        split; [done|]. by intros ? [= <-].
      + destruct H as [-> Hn]; [|done|].
        { by intros [[=]|[[=]|[=]%list_elem_of_singleton]%elem_of_cons]%elem_of_cons. }
        split; [done|]. intros (_ & _ & Hmin & _). apply Hn. by apply Hmin.
    - split; [|done]. intros nm (c & ? & ?)%Hk4. exists c.
      split; [done|by right]. }
  destruct (match truthy (route_minimums a) with Some _ => _ | None => _ end)
    as [p5|e]; simpl; [|left; tauto].
  destruct H5 as [Hk5 Hmin].
  pose proof (add_prohibited_outcome ["R"; "C"; "D"; "S"]%char p5) as H6.
  destruct (add_prohibited a p5) as [prob|e].
  - split_and!; [done..|]. apply H6; [|done].
    by intros [[=]|[[=]|[[=]|[=]%list_elem_of_singleton]%elem_of_cons]%elem_of_cons]
      %elem_of_cons.
  - destruct H6 as (l & Hl & [[-> (ij & Hij & Hout)]|(msg & -> & Hnd)]); [|done| |].
    { by intros [[=]|[[=]|[[=]|[=]%list_elem_of_singleton]%elem_of_cons]%elem_of_cons]
        %elem_of_cons. }
    + left. split; [done|]. intros (_ & _ & _ & Hpro).
      destruct (Hpro l Hl ij Hij) as [[? ?] [? ?]]. destruct Hout; congruence.
    + right. exists msg. split; [done|]. by exists l.
Qed.
End Outcomes.

(** X1: the solver is called exactly when the arguments are well shaped: the
    matrices cover every route, the prohibited routes are within range and
    none is listed twice.  For all other arguments the function raises before
    the solver is called. *)
Theorem solver_reached_iff_well_shaped (solver : LpProblem → SolverOutcome)
    (a : Args) :
  (well_shaped a ↔ ∃ prob, solver_calls (solve_transportation solver a) = [prob]) ∧
  (¬ well_shaped a ↔ rejects_before_solving solver a).
Proof.
  pose proof (build_model_outcome a) as H.
  unfold rejects_before_solving, solve_transportation.
  destruct (build_model a) as [prob|e]; simpl.
  - split; split; try done.
    + intros _. by exists prob.
    + by intros [e [=]].
  - assert (¬ well_shaped a) as Hn.
    { intros [Hin Hrep]%well_shaped_iff.
      destruct H as [[_ ?]|(msg & _ & ?)]; done. }
    split; split; try done.
    + by intros [prob [=]].
    + intros _. by exists e.
Qed.

(** X3: when the cost matrix has no entry for some route (i, j) with
    i < len(supply) and j < len(demand), the function raises IndexError and
    the solver is never called. *)
Theorem missing_cost_raises_IndexError (solver : LpProblem → SolverOutcome)
    (a : Args) (i j : nat) :
  i < length (supply a) → j < length (demand a) →
  costs a !! i ≫= (.!! j) = None →
  solve_transportation solver a = mkRun [] (Raise IndexError).
Proof.
  intros Hi Hj Hnone. unfold solve_transportation, build_model.
  pose proof (add_objective_outcome a
                (LpProblem_new "Transportation_Problem" LpMinimize)) as H.
  destruct (add_objective a _) as [p1|e]; simpl.
  - destruct H as [_ Hcov]. destruct (Hcov i j Hi Hj) as [c Hc]. congruence.
  - by destruct H as [-> _].
Qed.

Lemma missing_cost_raises_IndexError_witness :
  solve_transportation infeasible_solver no_costs_args = mkRun [] (Raise IndexError).
Proof.
  apply (missing_cost_raises_IndexError infeasible_solver no_costs_args 0 0).
  - simpl. lia.
  - simpl. lia.
  - reflexivity.
Defined.

(** X4: when every index is in range and some prohibited route is listed
    twice, the function raises PulpError (PuLP refuses the second constraint
    of the same name) and the solver is never called. *)
Theorem repeated_prohibited_raises_PulpError (solver : LpProblem → SolverOutcome)
    (a : Args) :
  indices_in_range a → repeats_prohibited a →
  ∃ msg, solve_transportation solver a = mkRun [] (Raise (PulpError msg)).
Proof.
  intros Hin Hrep. pose proof (build_model_outcome a) as H.
  unfold solve_transportation. destruct (build_model a) as [prob|e].
  - by apply well_shaped_iff in H as [_ ?].
  - destruct H as [[_ ?]|(msg & -> & _)]; [done|]. by exists msg.
Qed.

Lemma repeated_route_in_range : indices_in_range repeated_route_args.
Proof.
  split_and!; try done.
  - intros i j Hi Hj. simpl in Hi, Hj.
    destruct i as [|i], j as [|j]; try lia. by eexists.
  - intros l [= <-] ij Hij.
    repeat (apply elem_of_cons in Hij as [->|Hij]; [by split; eexists|]).
    by apply elem_of_nil in Hij.
Qed.

Lemma repeated_prohibited_raises_PulpError_witness :
  ∃ msg, solve_transportation infeasible_solver repeated_route_args
         = mkRun [] (Raise (PulpError msg)).
Proof.
  apply repeated_prohibited_raises_PulpError.
  - exact repeated_route_in_range.
  - exists [(0, 0); (0, 0)]%Z. split; [reflexivity|].
    intros [Hnotin _]%NoDup_cons. apply Hnotin. left.
Defined.

(** X5: a prohibited route (i, j) with i outside [-len(supply), len(supply))
    or j outside [-len(demand), len(demand)), in a list without repetition,
    makes the function raise IndexError before the solver is called. *)
Theorem prohibited_out_of_range_raises_IndexError
    (solver : LpProblem → SolverOutcome) (a : Args) (l : list (Z * Z))
    (ij : Z * Z) :
  prohibited_routes a = Some l → NoDup l → ij ∈ l →
  position (length (supply a)) ij.1 = None ∨
  position (length (demand a)) ij.2 = None →
  solve_transportation solver a = mkRun [] (Raise IndexError).
Proof.
  intros Hl Hnd Hij Hout.
  assert (truthy (prohibited_routes a) = Some l) as Ht.
  { apply truthy_Some. split; [done|]. intros ->. by apply elem_of_nil in Hij. }
  pose proof (build_model_outcome a) as H.
  unfold solve_transportation. destruct (build_model a) as [prob|e].
  - destruct H as (_ & _ & _ & Hpro).
    destruct (Hpro l Ht) as [_ Hpos]. destruct (Hpos ij Hij) as [[? ?] [? ?]].
    destruct Hout; congruence.
  - destruct H as [[-> _]|(msg & _ & l' & Hl' & Hnd')]; [done|].
    assert (l' = l) as -> by congruence. done.
Qed.

Lemma prohibited_out_of_range_raises_IndexError_witness :
  solve_transportation infeasible_solver far_route_args = mkRun [] (Raise IndexError).
Proof.
  apply (prohibited_out_of_range_raises_IndexError infeasible_solver
           far_route_args [(-2, 0)%Z] (-2, 0)%Z).
  - reflexivity.
  - apply NoDup_singleton.
  - left.
  - left. reflexivity.
Defined.

(** ** The rows of the model, and no others *)

Lemma addConstraint_only (p p' : LpProblem) (c0 : LpConstraint) (nm0 nm : string)
    (c : LpConstraint) :
  addConstraint p c0 nm0 = Ok p' → constraints p' !! nm = Some c →
  constraints p !! nm = Some c ∨ (nm = sanitize nm0 ∧ c = c0).
Proof.
  unfold addConstraint. cbv zeta.
  destruct (constraints p !! sanitize nm0); [done|]. intros [= <-]. simpl.
  intros [[<- <-]|[_ ?]]%lookup_insert_Some; [by right|by left].
Qed.

Lemma for_each_only {A} (l : list A) (body : A → LpProblem → Exc LpProblem)
    (P : A → string → LpConstraint → Prop) (p p' : LpProblem) :
  (∀ y q q', y ∈ l → body y q = Ok q' → ∀ nm c,
     constraints q' !! nm = Some c → constraints q !! nm = Some c ∨ P y nm c) →
  for_each l body p = Ok p' →
  ∀ nm c, constraints p' !! nm = Some c →
    constraints p !! nm = Some c ∨ ∃ y, y ∈ l ∧ P y nm c.
Proof.
  revert p. induction l as [|y l IH]; intros p Hbody; simpl.
  - intros [= <-] nm c ?. by left.
  - intros (p1 & H1 & H2)%bind_Ok nm c Hc.
    destruct (IH p1) with (nm := nm) (c := c) as [Hp1|(z & ? & ?)]; try done.
    + intros z q q' ?. apply Hbody. by right.
    + destruct (Hbody y p p1) with (nm := nm) (c := c) as [?|?]; try done.
      * left.
      * by left.
      * right. exists y. split; [left|done].
    + right. exists z. split; [by right|done].
Qed.

Section Rows.
Variable a : Args.
Local Abbreviation m := (length (supply a)).
Local Abbreviation n := (length (demand a)).

Lemma add_supply_only (p p' : LpProblem) (nm : string) (c : LpConstraint) :
  add_supply a p = Ok p' → constraints p' !! nm = Some c →
  constraints p !! nm = Some c ∨ listed_row a nm c.
Proof.
  rewrite add_supply_unfold. intros Hrun Hc.
  pose proof (λ Hb, for_each_only _ _
    (λ i nm c, ∃ s, supply a !! i = Some s ∧ nm = supply_name i ∧
                    c = mkConstraint (supply_lhs n i) LpConstraintLE s)
    p p' Hb Hrun nm c Hc) as Hfe.
  destruct Hfe as [?|(i & _ & s & ? & ? & ?)]; [|by left|].
  - intros i q q' _ (s & Hs & Hadd)%bind_Ok nm' c' Hc'.
    rewrite getitem_nat in Hs. destruct (supply a !! i) as [s'|] eqn:E; [|done].
    injection Hs as ->.
    destruct (addConstraint_only _ _ _ _ _ _ Hadd Hc') as [?|[-> ->]]; [by left|].
    right. exists s. by rewrite sanitize_supply_name.
  - right. left. by exists i, s.
Qed.

Lemma add_demand_only (p p' : LpProblem) (nm : string) (c : LpConstraint) :
  add_demand a p = Ok p' → constraints p' !! nm = Some c →
  constraints p !! nm = Some c ∨ listed_row a nm c.
Proof.
  rewrite add_demand_unfold. intros Hrun Hc.
  pose proof (λ Hb, for_each_only _ _
    (λ j nm c, ∃ d, demand a !! j = Some d ∧ nm = demand_name j ∧
                    c = mkConstraint (demand_lhs m j) LpConstraintGE d)
    p p' Hb Hrun nm c Hc) as Hfe.
  destruct Hfe as [?|(j & _ & d & ? & ? & ?)]; [|by left|].
  - intros j q q' _ (d & Hd & Hadd)%bind_Ok nm' c' Hc'.
    rewrite getitem_nat in Hd. destruct (demand a !! j) as [d'|] eqn:E; [|done].
    injection Hd as ->.
    destruct (addConstraint_only _ _ _ _ _ _ Hadd Hc') as [?|[-> ->]]; [by left|].
    right. exists d. by rewrite sanitize_demand_name.
  - right. right. left. by exists j, d.
Qed.

Lemma add_route_bounds_only (M : list (list Q)) (sn : LpConstraintSense)
    (prefix : string) (p p' : LpProblem) (nm : string) (c : LpConstraint) :
  sanitize prefix = prefix →
  add_route_bounds a M sn prefix p = Ok p' → constraints p' !! nm = Some c →
  constraints p !! nm = Some c ∨
  ∃ i j q, i < m ∧ j < n ∧ M !! i ≫= (.!! j) = Some q ∧
           nm = route_name prefix (i, j) ∧
           c = mkConstraint (of_var (x_var i j)) sn q.
Proof.
  intros Hprefix. rewrite add_route_bounds_unfold. intros Hrun Hc.
  pose proof (λ Hb, for_each_only _ _
    (λ ij nm c, ∃ q, M !! ij.1 ≫= (.!! ij.2) = Some q ∧
                     nm = route_name prefix ij ∧
                     c = mkConstraint (of_var (x_var ij.1 ij.2)) sn q)
    p p' Hb Hrun nm c Hc) as Hfe.
  destruct Hfe as [?|([i j] & [??]%elem_of_routes & q & ? & ? & ?)]; [|by left|].
  - intros ij q q' _ (v & Hv%getitem2_nat & Hadd)%bind_Ok nm' c' Hc'.
    destruct (addConstraint_only _ _ _ _ _ _ Hadd Hc') as [?|[-> ->]]; [by left|].
    right. exists v. by rewrite sanitize_route_name.
  - right. by exists i, j, q.
Qed.

Lemma add_prohibited_only (p p' : LpProblem) (nm : string) (c : LpConstraint) :
  add_prohibited a p = Ok p' → constraints p' !! nm = Some c →
  constraints p !! nm = Some c ∨ listed_row a nm c.
Proof.
  rewrite add_prohibited_unfold.
  destruct (truthy (prohibited_routes a)) as [l|] eqn:El;
    [|intros [= <-] ?; by left].
  intros Hrun Hc.
  pose proof (λ Hb, for_each_only _ _
    (λ ij nm c, ∃ r k, position m ij.1 = Some r ∧ position n ij.2 = Some k ∧
                       nm = prohibited_name ij ∧
                       c = mkConstraint (of_var (x_var r k)) LpConstraintEQ 0%Q)
    p p' Hb Hrun nm c Hc) as Hfe.
  destruct Hfe as [?|(ij & ? & r & k & ? & ? & ? & ?)]; [|by left|].
  - intros ij q q' _ (v & (r & k & ? & ? & ->)%getitem2_x_Ok & Hadd)%bind_Ok
      nm' c' Hc'.
    destruct (addConstraint_only _ _ _ _ _ _ Hadd Hc') as [?|[-> ->]]; [by left|].
    right. by exists r, k.
  - right. do 4 right. by exists l, ij, r, k.
Qed.

Lemma build_only (prob : LpProblem) (nm : string) (c : LpConstraint) :
  build_model a = Ok prob → constraints prob !! nm = Some c → listed_row a nm c.
Proof.
  intros (p1 & p2 & p3 & p4 & p5 & Hobj & Hsup & Hdem & Hcap & Hmin & Hpro)
    %build_model_Ok_inv Hc.
  destruct (add_prohibited_only _ _ _ _ Hpro Hc) as [Hc5|?]; [|done].
  assert (constraints p4 !! nm = Some c ∨ listed_row a nm c) as [Hc4|?]; [| |done].
  { unfold add_route_minimums in Hmin.
    destruct (truthy (route_minimums a)) as [M|] eqn:E;
      [|injection Hmin as <-; by left].
    destruct (add_route_bounds_only _ _ _ _ _ _ _ eq_refl Hmin Hc5)
      as [?|(i & j & q & ? & ? & ? & ? & ?)]; [by left|].
    right. do 3 right. left. by exists M, i, j, q. }
  assert (constraints p3 !! nm = Some c ∨ listed_row a nm c) as [Hc3|?]; [| |done].
  { unfold add_capacities in Hcap.
    destruct (truthy (capacities a)) as [M|] eqn:E;
      [|injection Hcap as <-; by left].
    destruct (add_route_bounds_only _ _ _ _ _ _ _ eq_refl Hcap Hc4)
      as [?|(i & j & q & ? & ? & ? & ? & ?)]; [by left|].
    right. do 2 right. left. by exists M, i, j, q. }
  destruct (add_demand_only _ _ _ _ Hdem Hc3) as [Hc2|?]; [|done].
  destruct (add_supply_only _ _ _ _ Hsup Hc2) as [Hc1|?]; [|done].
  apply add_objective_post in Hobj as (_ & Hcons & _).
  rewrite Hcons in Hc1. simpl in Hc1. by rewrite lookup_empty in Hc1.
Qed.

(** The variables of a listed row are variables of routes. *)
Lemma listed_row_variables (nm : string) (c : LpConstraint) (v : LpVariable) (k : Q) :
  listed_row a nm c → (v, k) ∈ lhs c → ∃ i j, i < m ∧ j < n ∧ v = x_var i j.
Proof.
  intros [(i & s & Hs%lookup_lt_Some & _ & ->)|[(j & d & Hd%lookup_lt_Some & _ & ->)|
    [(M & i & j & q & _ & ? & ? & _ & _ & ->)|
    [(M & i & j & q & _ & ? & ? & _ & _ & ->)|
     (l & ij & r & k' & _ & _ & ?%position_lt & ?%position_lt & _ & ->)]]]]; simpl.
  - intros (j & ?%elem_of_range & [= -> _])%elem_of_row. by exists i, j.
  - intros (i & ?%elem_of_range & [= -> _])%(elem_of_row (λ i, x_var i j)).
    by exists i, j.
  - intros [= -> _]%list_elem_of_singleton. by exists i, j.
  - intros [= -> _]%list_elem_of_singleton. by exists i, j.
  - intros [= -> _]%list_elem_of_singleton. by exists r, k'.
Qed.

Lemma lp_variables_routes (prob : LpProblem) (v : LpVariable) :
  build_model a = Ok prob → v ∈ lp_variables prob →
  ∃ i j, i < m ∧ j < n ∧ v = x_var i j.
Proof.
  intros Hbuild [Hv|Hv]%elem_of_app.
  - apply list_elem_of_fmap in Hv as ([v' k] & -> & Hv).
    destruct (build_objective a prob Hbuild) as (es & Hes & Hall).
    rewrite Hes in Hv.
    destruct (objective_terms a (λ _, None) _ _ Hall) as [_ Hin].
    destruct (Hin _ Hv) as ([i j] & [??]%elem_of_routes & ?). by exists i, j.
  - apply list_elem_of_bind in Hv as ([nm c] & Hv & Hc%elem_of_map_to_list).
    apply list_elem_of_fmap in Hv as ([v' k] & -> & Hv).
    eapply listed_row_variables; [|done]. by eapply build_only.
Qed.
End Rows.

(** X6: the model handed to the solver consists of exactly the rows the
    function writes: one supply row per origin, one demand row per
    destination, one capacity and one minimum row per route when the matrix is
    passed and non-empty, and one row per prohibited route; it holds no other
    constraint. *)
Theorem model_has_exactly_the_listed_rows (a : Args) (prob : LpProblem)
    (nm : string) (c : LpConstraint) :
  build_model a = Ok prob →
  constraints prob !! nm = Some c ↔ listed_row a nm c.
Proof.
  intros Hbuild. split; [by apply build_only|].
  intros [(i & s & ? & -> & ->)|[(j & d & ? & -> & ->)|
    [(M & i & j & q & [? ?]%truthy_Some & ? & ? & Hq & -> & ->)|
    [(M & i & j & q & [? ?]%truthy_Some & ? & ? & Hq & -> & ->)|
     (l & ij & r & k & [? ?]%truthy_Some & ? & Hr & Hk & -> & ->)]]]].
  - by apply build_supply_row.
  - by apply build_demand_row.
  - destruct (build_capacity a prob Hbuild M i j) as (q' & ? & ?); try done.
    by assert (q' = q) as -> by congruence.
  - destruct (build_minimum a prob Hbuild M i j) as (q' & ? & ?); try done.
    by assert (q' = q) as -> by congruence.
  - destruct (build_prohibited a prob Hbuild l ij) as (r' & k' & ? & ? & ?);
      try done.
    assert (r' = r) as -> by congruence. by assert (k' = k) as -> by congruence.
Qed.

Lemma model_has_exactly_the_listed_rows_witness :
  build_model example_args = Ok example_model ∧
  (constraints example_model !! "Capacity_1_0"
   = Some (mkConstraint (of_var (x_var 1 0)) LpConstraintLE 5%Q) ↔
   listed_row example_args "Capacity_1_0"
     (mkConstraint (of_var (x_var 1 0)) LpConstraintLE 5%Q)).
Proof.
  assert (build_model example_args = Ok example_model) as Hbuild
    by (vm_compute; reflexivity).
  split; [exact Hbuild|].
  exact (model_has_exactly_the_listed_rows example_args example_model _ _ Hbuild).
Defined.

(** ** Feasible readings, in terms of the arguments *)

Section Admissible.
Variables (a : Args) (prob : LpProblem).
Hypothesis Hbuild : build_model a = Ok prob.
Local Abbreviation m := (length (supply a)).
Local Abbreviation n := (length (demand a)).

Lemma feasible_is_admissible (vals : string → option Q) :
  feasible vals prob → admissible a vals.
Proof using Hbuild.
  intros Hfeas. unfold admissible. cbv zeta. split_and!.
  - intros i j Hi Hj.
    destruct (lookup_lt_is_Some_2 (supply a) i Hi) as [s Hs].
    pose proof (build_supply_row a prob Hbuild i s Hs) as Hrow.
    apply in_bounds_x_var.
    apply (feasible_in_bounds _ _ _ _ (x_var i j) 1%Q Hfeas Hrow).
    apply elem_of_row. exists j. split; [by apply elem_of_range|done].
  - intros i s Hs.
    pose proof (build_supply_row a prob Hbuild i s Hs) as Hrow.
    by apply (feasible_valid _ _ _ _ Hfeas), valid_supply_row in Hrow as [_ ?].
  - intros j d Hd.
    pose proof (build_demand_row a prob Hbuild j d Hd) as Hrow.
    by apply (feasible_valid _ _ _ _ Hfeas), valid_demand_row in Hrow as [_ ?].
  - intros M i j q [HM Hne]%truthy_Some Hi Hj Hq.
    destruct (build_capacity a prob Hbuild M i j HM Hne Hi Hj) as (q' & Hq' & Hrow).
    assert (q' = q) as -> by congruence.
    apply (feasible_valid _ _ _ _ Hfeas), valid_var in Hrow as (v & Hv & Hle).
    unfold shipment. by rewrite Hv.
  - intros M i j q [HM Hne]%truthy_Some Hi Hj Hq.
    destruct (build_minimum a prob Hbuild M i j HM Hne Hi Hj) as (q' & Hq' & Hrow).
    assert (q' = q) as -> by congruence.
    apply (feasible_valid _ _ _ _ Hfeas), valid_var in Hrow as (v & Hv & Hle).
    unfold shipment. by rewrite Hv.
  - intros l ij r k [Hl _]%truthy_Some Hij Hr Hk.
    destruct (build_prohibited a prob Hbuild l ij Hl Hij) as (r' & k' & ? & ? & Hrow).
    assert (r' = r) as -> by congruence. assert (k' = k) as -> by congruence.
    apply (feasible_valid _ _ _ _ Hfeas), valid_var in Hrow as (v & Hv & Hle).
    unfold shipment. by rewrite Hv.
Qed.

Lemma admissible_is_feasible (vals : string → option Q) :
  admissible a vals → feasible vals prob.
Proof using Hbuild.
  intros (H1 & H2 & H3 & H4 & H5 & H6). split.
  - intros nm c Hc. apply (build_only a prob nm c Hbuild) in Hc.
    destruct Hc as [(i & s & Hs & _ & ->)|[(j & d & Hd & _ & ->)|
      [(M & i & j & q & HM & Hi & Hj & Hq & _ & ->)|
      [(M & i & j & q & HM & Hi & Hj & Hq & _ & ->)|
       (l & ij & r & k & Hl & Hij & Hr & Hk & _ & ->)]]]].
    + apply valid_supply_row. split; [|by apply H2].
      intros j Hj. destruct (H1 i j) as (q & -> & _); [|done|by eexists].
      by eapply lookup_lt_Some.
    + apply valid_demand_row. split; [|by apply H3].
      intros i Hi. destruct (H1 i j) as (q & -> & _); [done| |by eexists].
      by eapply lookup_lt_Some.
    + apply valid_var. destruct (H1 i j Hi Hj) as (v & Hv & _). exists v.
      split; [done|]. specialize (H4 M i j q HM Hi Hj Hq).
      unfold shipment in H4. by rewrite Hv in H4.
    + apply valid_var. destruct (H1 i j Hi Hj) as (v & Hv & _). exists v.
      split; [done|]. specialize (H5 M i j q HM Hi Hj Hq).
      unfold shipment in H5. by rewrite Hv in H5.
    + apply valid_var.
      destruct (H1 r k) as (v & Hv & _); [by eapply position_lt..|]. exists v.
      split; [done|]. specialize (H6 l ij r k Hl Hij Hr Hk).
      unfold shipment in H6. by rewrite Hv in H6.
  - apply Forall_forall. intros v Hv.
    destruct (lp_variables_routes a prob v Hbuild Hv) as (i & j & ? & ? & ->).
    apply in_bounds_x_var. by apply H1.
Qed.
End Admissible.

(** X7: a reading is feasible for the model the function builds exactly when
    it gives every route a non-negative quantity, keeps each origin's outflow
    within its supply and each destination's inflow at or above its demand,
    and respects the capacity, the minimum and the prohibition of each route
    for which one was passed. *)
Theorem feasible_iff_admissible (a : Args) (prob : LpProblem)
    (vals : string → option Q) :
  build_model a = Ok prob → feasible vals prob ↔ admissible a vals.
Proof.
  intros Hbuild. split.
  - by apply feasible_is_admissible.
  - by apply admissible_is_feasible.
Qed.

Lemma feasible_iff_admissible_witness :
  build_model example_args = Ok example_model ∧
  (feasible (varValue (example_solver example_model)) example_model ↔
   admissible example_args (varValue (example_solver example_model))).
Proof.
  assert (build_model example_args = Ok example_model) as Hbuild
    by (vm_compute; reflexivity).
  split; [exact Hbuild|].
  exact (feasible_iff_admissible example_args example_model _ Hbuild).
Defined.

Lemma admissible_plain (a : Args) (vals : string → option Q) :
  admissible a vals → admissible (plain a) vals.
Proof.
  intros (H1 & H2 & H3 & _). unfold admissible. cbv zeta. simpl.
  split_and!; [done..| | |]; by intros.
Qed.

Lemma well_shaped_plain (a : Args) : well_shaped a → well_shaped (plain a).
Proof. intros (? & _). unfold well_shaped. cbv zeta. simpl. by split_and!. Qed.

Lemma build_model_well_shaped (a : Args) (prob : LpProblem) :
  build_model a = Ok prob → well_shaped a.
Proof. intros H. pose proof (build_model_outcome a) as Ho. by rewrite H in Ho. Qed.

(** X8: capacities, minimums and prohibited routes only ever restrict: when
    the function builds a model for some arguments, it also builds one for
    the same costs, supply and demand alone, and every reading feasible for
    the first is feasible for the second. *)
Theorem optional_constraints_only_restrict (a : Args) (prob : LpProblem) :
  build_model a = Ok prob →
  ∃ prob', build_model (plain a) = Ok prob' ∧
           ∀ vals, feasible vals prob → feasible vals prob'.
Proof.
  intros Hbuild.
  destruct (build_model_succeeds (plain a)) as [prob' Hbuild'].
  { by apply well_shaped_plain, build_model_well_shaped with prob. }
  exists prob'. split; [done|]. intros vals Hfeas.
  apply (admissible_is_feasible (plain a) prob' Hbuild').
  by apply admissible_plain, (feasible_is_admissible a prob Hbuild).
Qed.

Lemma optional_constraints_only_restrict_witness :
  build_model example_args = Ok example_model ∧
  ∃ prob', build_model (plain example_args) = Ok prob' ∧
           ∀ vals, feasible vals example_model → feasible vals prob'.
Proof.
  assert (build_model example_args = Ok example_model) as Hbuild
    by (vm_compute; reflexivity).
  split; [exact Hbuild|].
  exact (optional_constraints_only_restrict example_args example_model Hbuild).
Defined.

(** ** A feasible plan when supply covers demand *)

Lemma reading_of_x_var (f : nat → nat → Q) (m n i j : nat) :
  i < m → j < n → reading_of f m n (name (x_var i j)) = Some (f i j).
Proof.
  intros Hi Hj. unfold reading_of.
  destruct (list_find_elem_of (λ ij, name (x_var ij.1 ij.2) = name (x_var i j))
              (routes m n) (i, j)) as [[k [i' j']] Hfind]; [|done|].
  { by apply elem_of_routes. }
  rewrite Hfind. simpl.
  apply list_find_Some in Hfind as (_ & Hname & _). simpl in Hname.
  by apply x_var_name_inj in Hname as [-> ->].
Qed.

Lemma shipment_reading_of (f : nat → nat → Q) (m n i j : nat) :
  i < m → j < n → shipment (reading_of f m n) i j = f i j.
Proof. intros. unfold shipment. by rewrite reading_of_x_var. Qed.

Lemma Qsum_fmap_Qeq {A} (f g : A → Q) (l : list A) :
  (∀ y, y ∈ l → (f y == g y)%Q) → (Qsum (f <$> l) == Qsum (g <$> l))%Q.
Proof.
  induction l as [|y l IH]; intros Hfg; [done|].
  rewrite !fmap_cons, !Qsum_cons, (Hfg y), IH; [done| |left].
  intros ??. apply Hfg. by right.
Qed.

Lemma Qsum_fmap_le {A} (f g : A → Q) (l : list A) :
  (∀ y, y ∈ l → (f y <= g y)%Q) → (Qsum (f <$> l) <= Qsum (g <$> l))%Q.
Proof.
  induction l as [|y l IH]; intros Hfg; [done|].
  rewrite !fmap_cons, !Qsum_cons. apply Qplus_le_compat; [apply Hfg; left|].
  apply IH. intros ??. apply Hfg. by right.
Qed.

Lemma Qsum_scale {A} (c : Q) (f : A → Q) (l : list A) :
  (Qsum ((λ y, c * f y)%Q <$> l) == c * Qsum (f <$> l))%Q.
Proof.
  induction l as [|y l IH]; [simpl; ring|].
  rewrite !fmap_cons, !Qsum_cons, IH. ring.
Qed.

Lemma Qsum_lookup (l : list Q) :
  (Qsum ((λ i, default 0%Q (l !! i)) <$> range (length l)) == Qsum l)%Q.
Proof.
  unfold range. apply Qle_antisym.
  - apply Qsum_below. intros i s Hs. simpl. rewrite Hs. apply Qle_refl.
  - apply (Qsum_above l (λ i, default 0%Q (l !! i))).
    intros i s Hs. simpl. rewrite Hs. apply Qle_refl.
Qed.

Lemma Qsum_nonneg (l : list Q) : Forall (λ q, (0 <= q)%Q) l → (0 <= Qsum l)%Q.
Proof.
  induction 1 as [|q l Hq _ IH]; [done|]. rewrite Qsum_cons.
  rewrite <-(Qplus_0_l 0). by apply Qplus_le_compat.
Qed.

Lemma Qsum_elem_le (l : list Q) (i : nat) (q : Q) :
  Forall (λ q, (0 <= q)%Q) l → l !! i = Some q → (q <= Qsum l)%Q.
Proof.
  intros Hall. revert i. induction Hall as [|q' l Hq' Hall IH]; intros i; [done|].
  rewrite Qsum_cons. destruct i as [|i]; simpl.
  - intros [= ->]. rewrite <-(Qplus_0_r q) at 1.
    apply Qplus_le_compat; [apply Qle_refl|by apply Qsum_nonneg].
  - intros Hi%IH. rewrite <-(Qplus_0_l q).
    by apply Qplus_le_compat.
Qed.

Lemma proportional_nonneg (a : Args) (i j : nat) :
  Forall (λ q, (0 <= q)%Q) (supply a) → Forall (λ q, (0 <= q)%Q) (demand a) →
  (0 <= proportional a i j)%Q.
Proof.
  intros Hs Hd. unfold proportional. destruct (Qeq_bool _ 0); [done|].
  assert (∀ l k, Forall (λ q, (0 <= q)%Q) l → (0 <= default 0 (l !! k))%Q) as Hdef.
  { intros l k Hl. destruct (l !! k) as [q|] eqn:E; simpl; [|done].
    by eapply (Forall_lookup_1 _ l k q). }
  apply Qmult_le_0_compat; [apply Qmult_le_0_compat; by apply Hdef|].
  by apply Qinv_le_0_compat, Qsum_nonneg.
Qed.

(** X9: for costs covering every route, no capacities, minimums or prohibited
    routes, non-negative supplies and demands, and total demand at most total
    supply, the function builds a model that has a feasible reading: the plan
    shipping supply[i]·demand[j] / total supply on route (i, j). *)
Theorem balanced_problem_is_feasible (a : Args) :
  covers (length (supply a)) (length (demand a)) (costs a) →
  truthy (capacities a) = None → truthy (route_minimums a) = None →
  truthy (prohibited_routes a) = None →
  Forall (λ s, (0 <= s)%Q) (supply a) → Forall (λ d, (0 <= d)%Q) (demand a) →
  (Qsum (demand a) <= Qsum (supply a))%Q →
  ∃ prob, build_model a = Ok prob ∧
    feasible (reading_of (proportional a) (length (supply a)) (length (demand a)))
      prob.
Proof.
  intros Hcosts Hcap Hmin Hpro Hs Hd Hle.
  set (m := length (supply a)) in *. set (n := length (demand a)) in *.
  destruct (build_model_succeeds a) as [prob Hbuild].
  { unfold well_shaped. cbv zeta. rewrite Hcap, Hmin, Hpro. by split_and!. }
  exists prob. split; [done|]. apply (admissible_is_feasible a prob Hbuild).
  unfold admissible. cbv zeta. rewrite Hcap, Hmin, Hpro.
  fold m n. split_and!; try done.
  - intros i j Hi Hj. rewrite reading_of_x_var by done. eexists. split; [done|].
    by apply proportional_nonneg.
  - intros i s Hi. pose proof (lookup_lt_Some _ _ _ Hi) as Hlt. unfold outflow.
    rewrite (Qsum_fmap_ext _ (proportional a i)); cycle 1.
    { intros j Hj%elem_of_range. by apply shipment_reading_of. }
    unfold proportional. destruct (Qeq_bool (Qsum (supply a)) 0) eqn:E.
    + rewrite Qsum_fmap_zero. by eapply (Forall_lookup_1 _ (supply a) i s).
    + apply Qeq_bool_neq in E. rewrite Hi. simpl.
      rewrite (Qsum_fmap_Qeq _ (λ j, (s / Qsum (supply a)) * default 0 (demand a !! j))%Q);
        [|intros; by field].
      rewrite Qsum_scale. fold (range n). unfold n. rewrite Qsum_lookup.
      assert (0 <= s / Qsum (supply a))%Q as Hc.
      { apply Qmult_le_0_compat; [by eapply (Forall_lookup_1 _ (supply a) i s)|].
        by apply Qinv_le_0_compat, Qsum_nonneg. }
      apply Qle_trans with (s / Qsum (supply a) * Qsum (supply a))%Q.
      * rewrite !(Qmult_comm (s / Qsum (supply a))).
        by apply Qmult_le_compat_r.
      * apply Qle_lteq. right. by field.
  - intros j d Hj. pose proof (lookup_lt_Some _ _ _ Hj) as Hlt. unfold inflow.
    rewrite (Qsum_fmap_ext _ (λ i, proportional a i j)); cycle 1.
    { intros i Hi%elem_of_range. by apply shipment_reading_of. }
    unfold proportional. destruct (Qeq_bool (Qsum (supply a)) 0) eqn:E.
    + rewrite Qsum_fmap_zero. apply Qeq_bool_iff in E. rewrite <-E.
      apply Qle_trans with (Qsum (demand a)); [|done].
      by apply (Qsum_elem_le _ j).
    + apply Qeq_bool_neq in E. rewrite Hj. simpl.
      rewrite (Qsum_fmap_Qeq _ (λ i, (d / Qsum (supply a)) * default 0 (supply a !! i))%Q);
        [|intros; by field].
      rewrite Qsum_scale. fold (range m). unfold m. rewrite Qsum_lookup.
      apply Qle_lteq. right. by field.
Qed.

Lemma balanced_problem_is_feasible_witness :
  ∃ prob, build_model balanced_args = Ok prob ∧
    feasible (reading_of (proportional balanced_args) 2 2) prob.
Proof.
  apply balanced_problem_is_feasible.
  - intros i j Hi Hj. simpl in Hi, Hj.
    destruct i as [|[|i]], j as [|[|j]]; try lia; by eexists.
  - reflexivity.
  - reflexivity.
  - reflexivity.
  - repeat constructor; by vm_compute.
  - repeat constructor; by vm_compute.
  - by vm_compute.
Defined.

(** ** Constraints that leave no feasible reading *)

(** X10: when every route into a destination with positive demand is
    prohibited, the model the function builds has no feasible reading (as for
    one route, supply 10, demand 10 and the route prohibited). *)
Theorem prohibited_column_is_infeasible (a : Args) (prob : LpProblem)
    (l : list (Z * Z)) (j : nat) (d : Q) :
  build_model a = Ok prob →
  truthy (prohibited_routes a) = Some l →
  demand a !! j = Some d → (0 < d)%Q →
  (∀ i, i < length (supply a) →
     ∃ ij, ij ∈ l ∧ position (length (supply a)) ij.1 = Some i ∧
           position (length (demand a)) ij.2 = Some j) →
  ∀ vals, ¬ feasible vals prob.
Proof.
  intros Hbuild Hl Hd Hpos Hall vals
    (_ & _ & Hdem & _ & _ & Hpro)%(feasible_is_admissible a prob Hbuild).
  specialize (Hdem j d Hd). unfold inflow in Hdem.
  rewrite (Qsum_fmap_Qeq _ (λ _, 0%Q)), Qsum_fmap_zero in Hdem.
  - by apply Qle_not_lt in Hdem.
  - intros i Hi%elem_of_range.
    destruct (Hall i Hi) as (ij & Hij & Hr & Hk). by apply (Hpro l ij).
Qed.

Lemma prohibited_column_is_infeasible_witness :
  ∃ prob, build_model blocked_args = Ok prob ∧ ∀ vals, ¬ feasible vals prob.
Proof.
  eexists. split; [vm_compute; reflexivity|].
  apply (prohibited_column_is_infeasible blocked_args _ [(0, 0)%Z] 0 10%Q).
  - vm_compute. reflexivity.
  - reflexivity.
  - reflexivity.
  - by vm_compute.
  - intros i Hi. simpl in Hi. destruct i as [|i]; [|lia].
    exists (0, 0)%Z. split; [left|]. split; reflexivity.
Defined.

(** X11: when the capacities of the routes into a destination add up to less
    than its demand, the model the function builds has no feasible reading. *)
Theorem capacity_below_demand_is_infeasible (a : Args) (prob : LpProblem)
    (M : list (list Q)) (j : nat) (d : Q) :
  build_model a = Ok prob →
  truthy (capacities a) = Some M →
  demand a !! j = Some d →
  (Qsum ((λ i, default 0%Q (M !! i ≫= (.!! j))) <$> range (length (supply a))) < d)%Q →
  ∀ vals, ¬ feasible vals prob.
Proof.
  intros Hbuild HM Hd Hlt vals Hfeas.
  pose proof (build_model_well_shaped a prob Hbuild) as (_ & Hcov & _).
  apply (feasible_is_admissible a prob Hbuild) in Hfeas
    as (_ & _ & Hdem & Hcap & _).
  apply (Qlt_not_le _ _ Hlt). eapply Qle_trans; [by apply Hdem|].
  unfold inflow. apply Qsum_fmap_le. intros i Hi%elem_of_range.
  pose proof (lookup_lt_Some _ _ _ Hd) as Hj.
  destruct (Hcov M HM i j Hi Hj) as [q Hq]. rewrite Hq. simpl.
  by apply (Hcap M i j q).
Qed.

Lemma capacity_below_demand_is_infeasible_witness :
  ∃ prob, build_model tight_capacity_args = Ok prob ∧ ∀ vals, ¬ feasible vals prob.
Proof.
  eexists. split; [vm_compute; reflexivity|].
  apply (capacity_below_demand_is_infeasible tight_capacity_args _
           [[5]; [5]]%Q 0 15%Q).
  - vm_compute. reflexivity.
  - reflexivity.
  - reflexivity.
  - by vm_compute.
Defined.

(** X12: when the minimums of the routes out of an origin add up to more than
    its supply, the model the function builds has no feasible reading. *)
Theorem minimum_above_supply_is_infeasible (a : Args) (prob : LpProblem)
    (M : list (list Q)) (i : nat) (s : Q) :
  build_model a = Ok prob →
  truthy (route_minimums a) = Some M →
  supply a !! i = Some s →
  (s < Qsum ((λ j, default 0%Q (M !! i ≫= (.!! j))) <$> range (length (demand a))))%Q →
  ∀ vals, ¬ feasible vals prob.
Proof.
  intros Hbuild HM Hs Hlt vals Hfeas.
  pose proof (build_model_well_shaped a prob Hbuild) as (_ & _ & Hcov & _).
  apply (feasible_is_admissible a prob Hbuild) in Hfeas
    as (_ & Hsup & _ & _ & Hmin & _).
  apply (Qlt_not_le _ _ Hlt). eapply Qle_trans; [|by apply Hsup].
  unfold outflow. apply Qsum_fmap_le. intros j Hj%elem_of_range.
  pose proof (lookup_lt_Some _ _ _ Hs) as Hi.
  destruct (Hcov M HM i j Hi Hj) as [q Hq]. rewrite Hq. simpl.
  by apply (Hmin M i j q).
Qed.

Lemma minimum_above_supply_is_infeasible_witness :
  ∃ prob, build_model heavy_minimum_args = Ok prob ∧ ∀ vals, ¬ feasible vals prob.
Proof.
  eexists. split; [vm_compute; reflexivity|].
  apply (minimum_above_supply_is_infeasible heavy_minimum_args _
           [[6; 6]]%Q 0 10%Q).
  - vm_compute. reflexivity.
  - reflexivity.
  - reflexivity.
  - by vm_compute.
Defined.

(** ** The result's dictionary and the page's table *)

Lemma routes_S (m n : nat) :
  routes (S m) n = routes m n ++ ((λ j, (m, j)) <$> range n).
Proof.
  unfold routes, range. rewrite seq_S, bind_app. simpl.
  by rewrite app_nil_r.
Qed.

Lemma length_routes (m n : nat) : length (routes m n) = m * n.
Proof.
  induction m as [|m IH]; [done|].
  rewrite routes_S, length_app, IH, length_fmap. unfold range.
  rewrite length_seq. lia.
Qed.

(** The pairs come origin by origin. *)
Lemma routes_lookup (m n i j : nat) :
  i < m → j < n → routes m n !! (i * n + j) = Some (i, j).
Proof.
  induction m as [|m IH]; intros Hi Hj; [lia|].
  rewrite routes_S. destruct (decide (i = m)) as [->|Hne].
  - rewrite lookup_app_r by (rewrite length_routes; lia).
    rewrite length_routes. replace (m * n + j - m * n) with j by lia.
    unfold range. by rewrite list_lookup_fmap, lookup_seq_lt.
  - rewrite lookup_app_l by (rewrite length_routes; nia).
    apply IH; lia.
Qed.

(** X13: the dictionary of shipments in a returned result has exactly one
    entry per route: (i, j) is a key exactly when i < len(supply) and
    j < len(demand), and there are len(supply)·len(demand) entries. *)
Theorem variables_has_one_entry_per_route (solver : LpProblem → SolverOutcome)
    (a : Args) (sol : Solution) :
  outcome (solve_transportation solver a) = Ok sol →
  (∀ i j, is_Some (variables sol !! (i, j)) ↔
          i < length (supply a) ∧ j < length (demand a)) ∧
  size (variables sol) = length (supply a) * length (demand a).
Proof.
  intros Hsol.
  pose proof Hsol as (prob & Hbuild & _)%solve_transportation_Ok.
  pose proof (solution_variables solver a prob sol) as Hlook.
  set (m := length (supply a)) in *. set (n := length (demand a)) in *.
  split.
  - intros i j. rewrite Hlook by done. destruct (decide (i < m ∧ j < n)).
    + split; [done|]. by eexists.
    + split; [by intros [? [=]]|done].
  - set (items := (λ ij : nat * nat,
                     (ij, varValue (solver prob) (name (x_var ij.1 ij.2))))
                  <$> routes m n).
    assert (items.*1 = routes m n) as Hfst.
    { unfold items. rewrite <-list_fmap_compose. apply list_fmap_id. }
    assert (variables sol = list_to_map items) as ->.
    { apply map_eq. intros [i j]. rewrite Hlook by done.
      destruct (decide (i < m ∧ j < n)) as [Hin|Hout].
      - symmetry. apply elem_of_list_to_map.
        + rewrite Hfst. apply NoDup_routes.
        + apply list_elem_of_fmap. exists (i, j). split; [done|].
          by apply elem_of_routes.
      - symmetry. apply not_elem_of_list_to_map_1. rewrite Hfst.
        by rewrite elem_of_routes. }
    rewrite map_size_list_to_map by (rewrite Hfst; apply NoDup_routes).
    unfold items. by rewrite length_fmap, length_routes.
Qed.

Lemma variables_has_one_entry_per_route_witness :
  outcome (solve_transportation example_solver example_args) = Ok example_solution ∧
  (∀ i j, is_Some (variables example_solution !! (i, j)) ↔ i < 2 ∧ j < 2) ∧
  size (variables example_solution) = 2 * 2.
Proof.
  assert (outcome (solve_transportation example_solver example_args)
          = Ok example_solution) as Hsol by (vm_compute; reflexivity).
  split; [exact Hsol|].
  exact (variables_has_one_entry_per_route example_solver example_args _ Hsol).
Defined.

Lemma mapM_Raise_all {A B} (f : A → Exc B) (l : list A) (e0 : PyException) (y : A) :
  (∀ z e, f z = Raise e → e = e0) → y ∈ l → f y = Raise e0 →
  mapM f l = Raise e0.
Proof.
  intros Hall Hy Hfy. destruct (mapM f l) as [bs|e] eqn:E.
  - destruct (mapM_Ok_elem _ _ _ y E Hy) as [b ?]. congruence.
  - apply mapM_Raise in E as (z & _ & ->%Hall). done.
Qed.

(** X14: when the counts of the form do not exceed the lengths of supply and
    demand, the table shown after solving has one row per pair of the form,
    origin by origin, numbered from 1, each holding the value the result has
    for the route. *)
Theorem table_rows_of_result (solver : LpProblem → SolverOutcome) (a : Args)
    (sol : Solution) (num_origins num_destinations : nat) :
  outcome (solve_transportation solver a) = Ok sol →
  num_origins ≤ length (supply a) → num_destinations ≤ length (demand a) →
  ∃ rows,
    table_rows num_origins num_destinations sol = Ok rows ∧
    length rows = num_origins * num_destinations ∧
    ∀ i j, i < num_origins → j < num_destinations →
      ∃ u, variables sol !! (i, j) = Some u ∧
           rows !! (i * num_destinations + j) = Some (mkRow (i + 1) (j + 1) u).
Proof.
  intros Hsol Hno Hnd.
  pose proof Hsol as (prob & Hbuild & _)%solve_transportation_Ok.
  pose proof (solution_variables solver a prob sol) as Hlook.
  set (g := λ ij : nat * nat,
         mkRow (ij.1 + 1) (ij.2 + 1) (varValue (solver prob) (name (x_var ij.1 ij.2)))).
  exists (g <$> routes num_origins num_destinations). split_and!.
  - unfold table_rows. apply mapM_Ok.
    intros [i j] [??]%elem_of_routes. rewrite Hlook by done.
    rewrite decide_True by lia. done.
  - by rewrite length_fmap, length_routes.
  - intros i j Hi Hj. eexists. split.
    + rewrite Hlook by done. by rewrite decide_True by lia.
    + by rewrite list_lookup_fmap, routes_lookup.
Qed.

Lemma table_rows_of_result_witness :
  ∃ rows,
    table_rows 2 2 example_solution = Ok rows ∧
    length rows = 2 * 2 ∧
    ∀ i j, i < 2 → j < 2 →
      ∃ u, variables example_solution !! (i, j) = Some u ∧
           rows !! (i * 2 + j) = Some (mkRow (i + 1) (j + 1) u).
Proof.
  apply (table_rows_of_result example_solver example_args).
  - vm_compute. reflexivity.
  - simpl. lia.
  - simpl. lia.
Defined.

(** X15: when the form counts a pair (i, j) that is not a route of the
    arguments (i >= len(supply) or j >= len(demand)), building the table
    raises KeyError, although the function itself has returned a result. *)
Theorem table_rows_raises_KeyError (solver : LpProblem → SolverOutcome) (a : Args)
    (sol : Solution) (num_origins num_destinations i j : nat) :
  outcome (solve_transportation solver a) = Ok sol →
  i < num_origins → j < num_destinations →
  length (supply a) ≤ i ∨ length (demand a) ≤ j →
  table_rows num_origins num_destinations sol = Raise KeyError.
Proof.
  intros Hsol Hi Hj Hout.
  pose proof Hsol as (prob & Hbuild & _)%solve_transportation_Ok.
  pose proof (solution_variables solver a prob sol) as Hlook.
  unfold table_rows. apply (mapM_Raise_all _ _ _ (i, j)).
  - intros [i' j'] e. destruct (variables sol !! (i', j')); [done|].
    by intros [= <-].
  - by apply elem_of_routes.
  - rewrite Hlook by done. rewrite decide_False by lia. done.
Qed.

Lemma table_rows_raises_KeyError_witness :
  ∃ sol,
    outcome (solve_transportation stale_solver short_supply_args) = Ok sol ∧
    table_rows 2 1 sol = Raise KeyError.
Proof.
  eexists. split; [vm_compute; reflexivity|].
  apply (table_rows_raises_KeyError stale_solver short_supply_args _ 2 1 1 0).
  - vm_compute. reflexivity.
  - lia.
  - lia.
  - left. simpl. lia.
Defined.

(** X16: the page shows a table only when the supply field holds exactly as
    many numbers as the form counts origins, and the demand field at least
    as many as it counts destinations (the form builds one row of costs per
    origin and counts at least one origin and one destination). *)
Theorem table_needs_matching_supply (solver : LpProblem → SolverOutcome)
    (a : Args) (num_origins num_destinations : nat) (rows : list Row) :
  length (costs a) = num_origins → 1 ≤ num_origins → 1 ≤ num_destinations →
  page_table solver num_origins num_destinations a = Ok rows →
  length (supply a) = num_origins ∧ num_destinations ≤ length (demand a).
Proof.
  intros Hcosts Hno Hnd (sol & Hsol & Htable)%bind_Ok.
  pose proof Hsol as (prob & Hbuild & _)%solve_transportation_Ok.
  pose proof (solution_variables solver a prob sol) as Hlook.
  assert (num_origins - 1 < length (supply a) ∧
          num_destinations - 1 < length (demand a)) as [Hm Hn].
  { unfold table_rows in Htable.
    destruct (mapM_Ok_elem _ _ _ (num_origins - 1, num_destinations - 1) Htable)
      as [row Hrow]; [apply elem_of_routes; lia|].
    simpl in Hrow. rewrite Hlook in Hrow by done.
    destruct (decide _) as [Hin|]; [done|discriminate]. }
  split; [|lia].
  apply build_model_well_shaped in Hbuild as (Hcov & _).
  destruct (Hcov (length (supply a) - 1) 0) as [q Hq]; [lia..|].
  destruct (costs a !! (length (supply a) - 1)) as [r|] eqn:Hr; [|discriminate].
  apply lookup_lt_Some in Hr. lia.
Qed.

Lemma table_needs_matching_supply_witness :
  ∃ rows,
    page_table example_solver 2 2 example_args = Ok rows ∧
    length (supply example_args) = 2 ∧ 2 ≤ length (demand example_args).
Proof.
  eexists. split; [vm_compute; reflexivity|].
  eapply (table_needs_matching_supply example_solver example_args 2 2).
  - reflexivity.
  - lia.
  - lia.
  - vm_compute. reflexivity.
Defined.

(** ** Text of the fields and of the file *)

Lemma append_assoc (s t u : string) : (s +:+ t) +:+ u = s +:+ (t +:+ u).
Proof.
  induction s as [|c s IH]; [by rewrite !append_nil|].
  by rewrite !append_cons, IH.
Qed.

Lemma has_char_app (c : ascii) (s t : string) :
  has_char c (s +:+ t) = has_char c s || has_char c t.
Proof.
  induction s as [|c' s IH]; [by rewrite append_nil|].
  rewrite append_cons. simpl. rewrite IH. by rewrite orb_assoc.
Qed.

Lemma all_digits_has_char (c : ascii) (s : string) :
  is_digit c = false → all_digits s = true → has_char c s = false.
Proof.
  intros Hc. induction s as [|c' s IH]; [done|]. simpl.
  intros [Hd Hs]%andb_true_iff. rewrite IH by done.
  rewrite orb_false_r. apply bool_decide_eq_false. intros ->. congruence.
Qed.

Lemma str_split_field (sep : ascii) (w s : string) :
  has_char sep w = false →
  str_split sep (w +:+ String sep s) = w :: str_split sep s.
Proof.
  induction w as [|c w IH]; simpl.
  - intros _. rewrite ?append_nil. simpl. by rewrite decide_True.
  - intros [Hc Hw]%orb_false_iff. apply bool_decide_eq_false in Hc.
    rewrite ?append_cons. simpl. rewrite decide_False by done.
    by rewrite IH.
Qed.

Lemma str_split_last (sep : ascii) (w : string) :
  has_char sep w = false → str_split sep w = [w].
Proof.
  induction w as [|c w IH]; simpl; [done|].
  intros [Hc Hw]%orb_false_iff. apply bool_decide_eq_false in Hc.
  rewrite decide_False by done. by rewrite IH.
Qed.

(** Splitting undoes joining, for at least one field and fields without the
    separator. *)
Lemma str_split_join (sep : ascii) (l : list string) :
  l ≠ [] → Forall (λ w, has_char sep w = false) l →
  str_split sep (str_join (String sep "") l) = l.
Proof.
  induction l as [|w l IH]; [done|]. intros _ [Hw Hl]%Forall_cons.
  destruct l as [|w' l]; [by apply str_split_last|].
  change (str_join (String sep "") (w :: w' :: l))
    with (w +:+ String sep "" +:+ str_join (String sep "") (w' :: l)).
  rewrite append_cons, append_nil, str_split_field by done.
  by rewrite IH.
Qed.

(** X17: the file offered for download reads back as the table: split at
    line feeds it is the header followed by one line per row, and each line
    split at commas is the origin, the destination and the units of its row
    (for a table with a row, whose units are written without a comma or a
    line feed). *)
Theorem csv_text_reads_back (str_float : Q → string) (rows : list Row) :
  rows ≠ [] → forallb (plain_units str_float) rows = true →
  str_split line_feed (csv_text str_float rows)
    = "Origen,Destino,Unidades" :: (csv_line str_float <$> rows) ∧
  ∀ v, v ∈ rows →
    str_split comma (csv_line str_float v)
      = [pretty (Origen v); pretty (Destino v); str_units str_float (Unidades v)].
Proof.
  intros Hne Hplain.
  assert (∀ v, v ∈ rows →
            has_char comma (str_units str_float (Unidades v)) = false ∧
            has_char line_feed (str_units str_float (Unidades v)) = false)
    as Hunits.
  { intros v Hv. rewrite forallb_forall in Hplain.
    specialize (Hplain v). unfold plain_units in Hplain.
    rewrite andb_true_iff, !negb_true_iff in Hplain. apply Hplain.
    by apply list_elem_of_In. }
  assert (∀ c k, is_digit c = false → has_char c (pretty (k : nat)) = false)
    as Hdigits.
  { intros c k Hc. apply all_digits_has_char; [done|].
    apply all_digits_pretty_nat. }
  split.
  - unfold csv_text. rewrite append_assoc, (append_cons line_feed ""), append_nil.
    rewrite str_split_field by (vm_compute; reflexivity).
    f_equal. apply str_split_join.
    + by destruct rows.
    + apply Forall_fmap, Forall_forall. intros v Hv. simpl. unfold csv_line.
      rewrite !has_char_app, !Hdigits by (vm_compute; reflexivity).
      by destruct (Hunits v Hv) as [_ ->].
  - intros v Hv. unfold csv_line. destruct (Hunits v Hv) as [Hu _].
    rewrite !append_cons, !append_nil.
    rewrite !str_split_field by (apply Hdigits; vm_compute; reflexivity).
    by rewrite str_split_last.
Qed.

Lemma csv_text_reads_back_witness :
  str_split line_feed (csv_text whole_text example_rows)
    = "Origen,Destino,Unidades" :: (csv_line whole_text <$> example_rows) ∧
  ∀ v, v ∈ example_rows →
    str_split comma (csv_line whole_text v)
      = [pretty (Origen v); pretty (Destino v); str_units whole_text (Unidades v)].
Proof.
  apply (csv_text_reads_back whole_text example_rows).
  - discriminate.
  - vm_compute. reflexivity.
Defined.

(** X18: an untouched field for k numbers (k at least 1, as the form has it)
    reads as a list of k zeros. *)
Theorem default_text_reads_as_zeros (float : string → option Q) (k : nat) (q0 : Q) :
  0 < k → float "0" = Some q0 →
  parse_row float (default_text k) = Some (replicate k q0).
Proof.
  intros Hk Hfloat. unfold parse_row, default_text.
  change "," with (String comma ""). rewrite str_split_join.
  - apply mapM_Some. induction k as [|k IH]; [lia|].
    destruct k as [|k]; simpl.
    + by repeat constructor.
    + constructor; [done|]. apply IH. lia.
  - destruct k; [lia|done].
  - apply Forall_replicate. vm_compute. reflexivity.
Qed.

Lemma default_text_reads_as_zeros_witness :
  parse_row float_of_zero (default_text 3) = Some (replicate 3 0%Q).
Proof.
  apply (default_text_reads_as_zeros float_of_zero 3 0%Q).
  - lia.
  - reflexivity.
Defined.

(** ** The total cost of a result *)



(** X20: the total cost of a returned result is None exactly when every route
    costs nothing (the objective then has no term and PuLP leaves its
    valueless variable [__dummy] in it) or some route that costs something
    has no resolved value. *)
Theorem total_cost_is_null_iff (solver : LpProblem → SolverOutcome)
    (a : Args) (sol : Solution) :
  outcome (solve_transportation solver a) = Ok sol →
  total_cost sol = None ↔
  (∀ i j, i < length (supply a) → j < length (demand a) →
     (cost_at a i j == 0)%Q) ∨
  (∃ i j, i < length (supply a) ∧ j < length (demand a) ∧
          ¬ (cost_at a i j == 0)%Q ∧ variables sol !! (i, j) = Some None).
Proof.
  intros Hsol.
  pose proof Hsol as (prob & Hbuild & _)%solve_transportation_Ok.
  assert (∀ i j, i < length (supply a) → j < length (demand a) →
            variables sol !! (i, j)
            = Some (varValue (solver prob) (name (x_var i j)))) as Hvars.
  { intros i j ??. rewrite (solution_variables solver a prob) by done.
    by rewrite decide_True. }
  destruct (decide (objective prob = [])) as [Hnil|Hterms].
  - split; [|intros _; by apply (total_cost_no_terms solver a prob)].
    intros _. left. by apply (objective_nil_iff a prob Hbuild).
  - rewrite (total_cost_with_terms solver a prob sol Hbuild Hsol Hterms). split.
    + intros (vc & Hvc & Hnone)%value_from_None. right.
      apply (elem_of_objective a prob _ Hbuild) in Hvc
        as (i & j & Hi & Hj & Hne & ->).
      exists i, j. split_and!; [done..|]. rewrite Hvars by done.
      by rewrite <-Hnone.
    + intros [Hzero|(i & j & Hi & Hj & Hne & Hnone)].
      * destruct Hterms. by apply (objective_nil_iff a prob Hbuild).
      * destruct (value _ (objective prob)) as [q|] eqn:E; [|done].
        apply value_Some in E as [_ Hall].
        destruct (Hall (x_var i j, cost_at a i j)) as [q' Hq'].
        { apply (elem_of_objective a prob _ Hbuild). by exists i, j. }
        rewrite Hvars in Hnone by done. cbn [fst] in Hq'. congruence.
Qed.

Lemma total_cost_is_null_iff_witness :
  ∃ sol,
    outcome (solve_transportation unsolved_solver single_route_args) = Ok sol ∧
    (total_cost sol = None ↔
     (∀ i j, i < 1 → j < 1 → (cost_at single_route_args i j == 0)%Q) ∨
     (∃ i j, i < 1 ∧ j < 1 ∧ ¬ (cost_at single_route_args i j == 0)%Q ∧
             variables sol !! (i, j) = Some None)).
Proof.
  eexists. split; [vm_compute; reflexivity|].
  apply (total_cost_is_null_iff unsolved_solver single_route_args).
  vm_compute. reflexivity.
Defined.
